(** * Distribution Explorer: the computations of [app.py]

    [app.py] is a Streamlit script.  Every rerun reads four sliders, draws a
    sample from the skew-normal distribution, computes four sample
    statistics, evaluates the theoretical density on a 500-point grid and
    renders a chart with a title.

    Numbers.  Python floats are idealised: the values that come out of the
    sliders are exact rationals ([Q]), the values computed by numpy and scipy
    are real numbers ([R]).  A result that numpy reports as [nan] is [None].

    Library calls.  [numpy] and [scipy] are not part of the repository; the
    functions the script calls ([np.mean], [np.std], [np.linspace],
    [stats.skew], [stats.skewnorm.pdf]) are written out here after their
    library definitions, keeping the arguments the script leaves at their
    defaults ([ddof], [bias], [endpoint]) as explicit parameters. *)

From Stdlib Require Import Strings.String Strings.Ascii.
From Stdlib Require Import Reals.Reals Psatz Lia List ZArith QArith Qreals.
From Stdlib Require Import Qround Qabs DecimalString.
From Stdlib Require Import Orders Sorting.Mergesort Sorting.Sorted Permutation.
Import ListNotations.

Local Open Scope R_scope.

(** ** The standard normal distribution *)

Module Normal.

(** [exp(-t^2)], the integrand of the error function. *)
Definition erf_integrand (t : R) : R := exp (- (t * t)).

Lemma erf_integrand_continuity : continuity erf_integrand.
Proof.
  unfold erf_integrand.
  apply (continuity_comp (fun t => - (t * t)) exp).
  - apply continuity_opp.
    apply continuity_mult; apply derivable_continuous, derivable_id.
  - apply derivable_continuous, derivable_exp.
Qed.

Lemma erf_integrable (a b : R) : Riemann_integrable erf_integrand a b.
Proof.
  destruct (Rle_dec a b) as [Hab | Hab].
  - apply continuity_implies_RiemannInt; [exact Hab |].
    intros t _. apply erf_integrand_continuity.
  - apply RiemannInt_P1.
    apply continuity_implies_RiemannInt; [lra |].
    intros t _. apply erf_integrand_continuity.
Qed.

(** [erf x = 2/sqrt(pi) * integral of exp(-t^2) for t from 0 to x]. *)
Definition erf (x : R) : R :=
  2 / sqrt PI * RiemannInt (erf_integrable 0 x).

(** [scipy.stats._continuous_distns._norm_pdf]:
    [np.exp(-x**2/2.0) / _norm_pdf_C] with [_norm_pdf_C = np.sqrt(2*np.pi)]. *)
Definition _norm_pdf_C : R := sqrt (2 * PI).
Definition _norm_pdf (x : R) : R := exp (- (x ^ 2) / 2) / _norm_pdf_C.

(** [_norm_cdf] is [scipy.special.ndtr], the standard normal cumulative
    distribution function, in its error-function form
    [ndtr(x) = (1 + erf(x / sqrt 2)) / 2]. *)
Definition ndtr (x : R) : R := (1 + erf (x / sqrt 2)) / 2.
Definition _norm_cdf (x : R) : R := ndtr x.

End Normal.

(** ** [scipy.stats.skewnorm] *)

Module Skewnorm.
Import Normal.

(** [skew_norm_gen._pdf]:
    [_lazywhere(a == 0, (x, a), lambda x, a: _norm_pdf(x),
                f2=lambda x, a: 2.*_norm_pdf(x)*_norm_cdf(a*x))]. *)
Definition _pdf (x a : R) : R :=
  if Req_dec_T a 0 then _norm_pdf x
  else 2 * _norm_pdf x * _norm_cdf (a * x).

(** [rv_continuous.pdf(x, a, loc, scale)]: the argument is standardised to
    [(x - loc)/scale]; where [scale > 0] fails the output is [badvalue]
    ([nan]), elsewhere it is [_pdf(x, a) / scale].  The support of the
    skew-normal is the whole line and [_argcheck] accepts every finite
    [a]. *)
Definition pdf (x a loc scale : R) : option R :=
  let x := (x - loc) / scale in
  if Rlt_dec 0 scale then Some (_pdf x a / scale) else None.

End Skewnorm.

(** ** Ordering of array elements *)

Module ROrder <: TotalLeBool.

Definition t := R.

Definition leb (x y : R) : bool := if Rle_dec x y then true else false.

Theorem leb_total : forall x y, leb x y = true \/ leb y x = true.
Proof.
  intros x y. unfold leb.
  destruct (Rle_dec x y), (Rle_dec y x); auto. lra.
Qed.

End ROrder.

Module RSort := Sort ROrder.

(** ** [numpy] *)

Module Numpy.

Definition sum (a : list R) : R := fold_right Rplus 0 a.

(** [np.mean(a)]: the sum divided by the number of elements. *)
Definition mean (a : list R) : R := sum a / INR (length a).

(** [np.var(a, ddof)]: the deviations from the mean are squared, summed and
    divided by [max(N - ddof, 0)]. *)
Definition var (a : list R) (ddof : nat) : R :=
  let arrmean := mean a in
  let x := map (fun v => v - arrmean) a in
  let x := map (fun v => v * v) x in
  let rcount := Rmax (INR (length a) - INR ddof) 0 in
  sum x / rcount.

(** [np.std(a, ddof)] is the square root of [np.var(a, ddof)]. *)
Definition std (a : list R) (ddof : nat) : R := sqrt (var a ddof).

(** [np.median(a)]:
<<
    sz = a.shape[axis]
    kth = [sz // 2 - 1, sz // 2] if sz % 2 == 0 else [(sz - 1) // 2]
    part = partition(a, kth)
    index = part.shape[axis] // 2
    if part.shape[axis] % 2 == 1: indexer = slice(index, index + 1)
    else:                         indexer = slice(index - 1, index + 1)
    return mean(part[indexer])
>>
    [partition] puts the elements at the positions [kth] where a sort puts
    them, so the slice is the slice of the sorted array. *)
Definition median (a : list R) : R :=
  let part := RSort.sort a in
  let index := (length part / 2)%nat in
  if Nat.odd (length part)
  then mean (firstn 1 (skipn index part))
  else mean (firstn 2 (skipn (index - 1) part)).

(** [ndarray.min()] and [ndarray.max()]; both raise [ValueError] on an
    array of size zero. *)
Definition ndarray_min (a : list R) : option R :=
  match a with
  | [] => None
  | v :: rest => Some (fold_left Rmin rest v)
  end.

Definition ndarray_max (a : list R) : option R :=
  match a with
  | [] => None
  | v :: rest => Some (fold_left Rmax rest v)
  end.

(** [y[-1] = stop]. *)
Fixpoint set_last (y : list R) (stop : R) : list R :=
  match y with
  | [] => []
  | [_] => [stop]
  | v :: rest => v :: set_last rest stop
  end.

(** [np.linspace(start, stop, num, endpoint)]:
<<
    div = (num - 1) if endpoint else num
    delta = stop - start
    y = arange(0, num)
    if div > 0:
        step = delta / div
        if step == 0: y /= div; y *= delta
        else:         y *= step
    else:
        y = y * delta
    y += start
    if endpoint and num > 1: y[-1] = stop
>> *)
Definition linspace (start stop : R) (num : nat) (endpoint : bool) : list R :=
  let div := if endpoint then (num - 1)%nat else num in
  let delta := stop - start in
  let y := map INR (seq 0 num) in
  let y :=
    if (0 <? div)%nat then
      let step := delta / INR div in
      if Req_dec_T step 0
      then map (fun v => v / INR div * delta) y
      else map (fun v => v * step) y
    else map (fun v => v * delta) y in
  let y := map (fun v => v + start) y in
  if (endpoint && (1 <? num)%nat)%bool then set_last y stop else y.

End Numpy.

(** ** [scipy.stats.skew] *)

Module Stats.

(** [_moment(a, k, mean=mean)]: the mean of the [k]-th powers of the
    deviations from the mean. *)
Definition _moment (a : list R) (k : nat) (mean : R) : R :=
  Numpy.mean (map (fun v => (v - mean) ^ k) a).

(** [m2 ** 1.5]. *)
Definition pow_1_5 (m2 : R) : R := Rpower m2 (3 / 2).

(** [np.finfo(np.float64).resolution], [1e-15]. *)
Definition resolution : R := / 10 ^ 15.

(** [stats.skew(a, bias)]:
<<
    n = a.shape[axis]
    mean = a.mean()
    m2 = _moment(a, 2, mean=mean)
    m3 = _moment(a, 3, mean=mean)
    zero = (m2 <= (resolution * mean)**2)
    vals = where(zero, nan, m3 / m2**1.5)
    if not bias and not zero and n > 2:
        vals = sqrt((n - 1.0) * n) / (n - 2.0) * m3 / m2**1.5
>>
    A sample whose spread is lost in the size of its mean is treated like
    one without spread. *)
Definition skew (a : list R) (bias : bool) : option R :=
  let n := length a in
  let mean := Numpy.mean a in
  let m2 := _moment a 2 mean in
  let m3 := _moment a 3 mean in
  if Rle_dec m2 ((resolution * mean) ^ 2) then None
  else if (negb bias && (2 <? n)%nat)%bool
       then Some (sqrt ((INR n - 1) * INR n) / (INR n - 2) * m3 / pow_1_5 m2)
       else Some (m3 / pow_1_5 m2).

End Stats.

(** ** The sidebar widgets *)

Module Streamlit.

(** [st.sidebar.slider(label, min_value, max_value, value, step)].  With
    integer arguments the widget returns an integer, with float arguments a
    float.  [value] is what the widget returns when it first renders;
    afterwards it returns the position of the thumb, one of the ticks
    [min_value + k * step] that do not pass [max_value]. *)
Record IntSlider := {
  imin_value : Z;
  imax_value : Z;
  ivalue : Z;
  istep : Z
}.

Record FloatSlider := {
  min_value : Q;
  max_value : Q;
  value : Q;
  step : Q
}.

(** Index of the last tick. *)
Definition ilast_tick (s : IntSlider) : Z :=
  ((imax_value s - imin_value s) / istep s)%Z.

Definition last_tick (s : FloatSlider) : Z :=
  Qfloor ((max_value s - min_value s) / step s).

(** The state of a widget: untouched, or the thumb on tick [k] (a thumb
    dragged past the end of the track stays on the last tick).  A value
    written into the widget state by other means than the thumb is not
    covered. *)
Definition int_slider (s : IntSlider) (state : option nat) : Z :=
  match state with
  | None => ivalue s
  | Some k => (imin_value s + Z.min (Z.of_nat k) (ilast_tick s) * istep s)%Z
  end.

Definition slider (s : FloatSlider) (state : option nat) : Q :=
  match state with
  | None => value s
  | Some k =>
      (min_value s + inject_Z (Z.min (Z.of_nat k) (last_tick s)) * step s)%Q
  end.

End Streamlit.

(** ** The script *)

Module App.
Import Streamlit.

(** Lines 25-63: the four sliders. *)
Definition n_samples_slider : IntSlider :=
  {| imin_value := 100; imax_value := 10000; ivalue := 2000; istep := 100 |}.

Definition skew_param_slider : FloatSlider :=
  {| min_value := -10; max_value := 10; value := 0; step := 1 # 10 |}.

Definition loc_param_slider : FloatSlider :=
  {| min_value := -10; max_value := 10; value := 0; step := 1 # 10 |}.

Definition scale_param_slider : FloatSlider :=
  {| min_value := 1 # 10; max_value := 10; value := 1; step := 1 # 10 |}.

(** What the user has done to the four widgets. *)
Record Sidebar := {
  n_samples_state : option nat;
  skew_param_state : option nat;
  loc_param_state : option nat;
  scale_param_state : option nat
}.

Record Parameters := {
  n_samples : Z;
  skew_param : Q;
  loc_param : Q;
  scale_param : Q
}.

Definition read_sidebar (ui : Sidebar) : Parameters :=
  {| n_samples := int_slider n_samples_slider (n_samples_state ui);
     skew_param := slider skew_param_slider (skew_param_state ui);
     loc_param := slider loc_param_slider (loc_param_state ui);
     scale_param := slider scale_param_slider (scale_param_state ui) |}.

(** Line 70: [stats.skewnorm.rvs(..., size=n_samples)] returns an array of
    [n_samples] draws; which numbers they are is left open. *)
Definition drawn (p : Parameters) (generated_data : list R) : Prop :=
  Z.of_nat (length generated_data) = n_samples p.

(** Python's [min(a, b)] and [max(a, b)] keep the first argument unless the
    second is strictly smaller (larger). *)
Definition py_min (a b : R) : R := if Rlt_dec b a then b else a.
Definition py_max (a b : R) : R := if Rlt_dec a b then b else a.

Section Calculations.

(** The sample drawn by [stats.skewnorm.rvs] and the values of
    [skew_param], [loc_param] and [scale_param]. *)
Variable generated_data : list R.
Variables a loc scale : R.

(** Lines 73-75. *)
Definition sample_mean : R := Numpy.mean generated_data.
Definition sample_std_dev : R := Numpy.std generated_data 0.
Definition sample_skewness : option R := Stats.skew generated_data true.

(** Line 76. *)
Definition sample_median : R := Numpy.median generated_data.

(** Lines 92-95. *)
Definition x_min : option R :=
  option_map (fun m => py_min m (loc - 4 * scale))
             (Numpy.ndarray_min generated_data).

Definition x_max : option R :=
  option_map (fun m => py_max m (loc + 4 * scale))
             (Numpy.ndarray_max generated_data).

Definition x_pdf : option (list R) :=
  match x_min, x_max with
  | Some lo, Some hi => Some (Numpy.linspace lo hi 500 true)
  | _, _ => None
  end.

Definition pdf_values : option (list (option R)) :=
  option_map
    (map (fun x => Skewnorm.pdf x a loc scale))
    x_pdf.

End Calculations.

(** Line 117: [abs(skew_param) < 0.01]. *)
Definition distribution_name (skew_param : Q) : string :=
  if Qlt_le_dec (Qabs skew_param) (1 # 100) then "Normal" else "Skew-Normal".

(** Rounding of a non-negative rational to the nearest integer, ties to
    the even one, as Python's float formatting rounds. *)
Definition round_half_even (q : Q) : Z :=
  let f := Qfloor q in
  match (q - inject_Z f ?= 1 # 2)%Q with
  | Lt => f
  | Gt => (f + 1)%Z
  | Eq => if Z.even f then f else (f + 1)%Z
  end.

Definition digits (n : Z) : string :=
  NilZero.string_of_uint (N.to_uint (Z.to_N n)).

(** The format specification [:.1f]: a minus sign for a negative number,
    the integer part, a point and one decimal. *)
Definition format_1f (q : Q) : string :=
  let tenths := round_half_even (Qabs q * 10) in
  ((if (Qnum q <? 0)%Z then "-" else "")
   ++ digits (tenths / 10) ++ "." ++ digits (tenths mod 10))%string.

(** Line 119, the [title] argument of [fig.update_layout]. *)
Definition title (p : Parameters) : string :=
  (distribution_name (skew_param p) ++ " Distribution (α="
   ++ format_1f (skew_param p) ++ ", ξ=" ++ format_1f (loc_param p)
   ++ ", ω=" ++ format_1f (scale_param p) ++ ")")%string.

End App.

(** ** The notions of the specification *)

Module Spec.

(** Standard normal density and cumulative distribution function. *)
Definition phi (z : R) : R := exp (- (z ^ 2) / 2) / sqrt (2 * PI).
Definition Phi (z : R) : R := Normal.ndtr z.

(** [(2/omega) * phi((x - xi)/omega) * Phi(alpha * (x - xi)/omega)]. *)
Definition skew_normal_pdf (alpha xi omega x : R) : R :=
  (2 / omega) * phi ((x - xi) / omega) * Phi (alpha * (x - xi) / omega).

(** [(1/(omega*sqrt(2 pi))) * exp(-(x - xi)^2 / (2 omega^2))]. *)
Definition normal_pdf (xi omega x : R) : R :=
  (1 / (omega * sqrt (2 * PI))) * exp (- ((x - xi) ^ 2) / (2 * omega ^ 2)).

(** Smallest and largest element of a sample. *)
Definition is_minimum (m : R) (sample : list R) : Prop :=
  In m sample /\ forall v, In v sample -> m <= v.

Definition is_maximum (m : R) (sample : list R) : Prop :=
  In m sample /\ forall v, In v sample -> v <= m.

(** [num] points from [lo] to [hi] in equal steps. *)
Definition linearly_spaced (lo hi : R) (num : nat) (xs : list R) : Prop :=
  length xs = num /\
  forall i, (i < num)%nat ->
    nth i xs 0 = lo + INR i * ((hi - lo) / INR (num - 1)).

Definition strictly_increasing (xs : list R) : Prop :=
  forall i j, (i < j < length xs)%nat -> nth i xs 0 < nth j xs 0.

(** Sum of [f] over a sample. *)
Fixpoint total (f : R -> R) (sample : list R) : R :=
  match sample with
  | [] => 0
  | v :: rest => f v + total f rest
  end.

Definition average (sample : list R) : R :=
  total (fun v => v) sample / INR (length sample).

(** [m_k], the [k]-th central moment: the mean of the [k]-th powers of the
    deviations from the sample mean, with divisor [N]. *)
Definition central_moment (k : nat) (sample : list R) : R :=
  total (fun v => (v - average sample) ^ k) sample / INR (length sample).

(** Population standard deviation. *)
Definition population_std_dev (sample : list R) : R :=
  sqrt (total (fun v => (v - average sample) ^ 2) sample
        / INR (length sample)).

(** The estimator with divisor [N - 1], for comparison. *)
Definition corrected_std_dev (sample : list R) : R :=
  sqrt (total (fun v => (v - average sample) ^ 2) sample
        / (INR (length sample) - 1)).

(** [g1 = m3 / m2^1.5]. *)
Definition g1 (sample : list R) : R :=
  central_moment 3 sample / Rpower (central_moment 2 sample) (3 / 2).

(** How many sample values are at most, and at least, [m]. *)
Definition count_le (m : R) (sample : list R) : nat :=
  length (filter (fun v => ROrder.leb v m) sample).

Definition count_ge (m : R) (sample : list R) : nat :=
  length (filter (fun v => ROrder.leb m v) sample).

(** A decimal numeral with one decimal place, and the number it denotes. *)
Definition numeral_1f (negative : bool) (units tenth : Z) : string :=
  ((if negative then "-" else "")
   ++ App.digits units ++ "." ++ App.digits tenth)%string.

Definition numeral_value (negative : bool) (units tenth : Z) : Q :=
  let v := (inject_Z units + inject_Z tenth / 10)%Q in
  if negative then (- v)%Q else v.

(** The text [s] is a one-decimal numeral of the number [q]. *)
Definition shows (q : Q) (s : string) : Prop :=
  exists negative units tenth,
    (0 <= units)%Z /\ (0 <= tenth < 10)%Z /\
    s = numeral_1f negative units tenth /\
    (q == numeral_value negative units tenth)%Q.

End Spec.

(** ** Auxiliary integrands for the Gaussian integral *)

Module Gauss.

(** [exp(-x^2 (1 + s^2)) / (1 + s^2)] and its derivatives in [x]. *)
Definition weight (x s : R) : R :=
  exp (- (x * x * (1 + s * s))) / (1 + s * s).

Definition weight_dx (x s : R) : R :=
  -2 * x * exp (- (x * x * (1 + s * s))).

Definition weight_dxx (x s : R) : R :=
  (-2 + 4 * (x * x) * (1 + s * s)) * exp (- (x * x * (1 + s * s))).

(** [x exp(-(x s)^2)], the integrand of the error function after the
    substitution [t = x s]. *)
Definition stretched (x s : R) : R := x * exp (- (x * s * (x * s))).

End Gauss.

(** * Properties *)

(** ** Density *)

Lemma erf_0 : Normal.erf 0 = 0.
Proof.
  unfold Normal.erf. rewrite RiemannInt_P9. lra.
Qed.

Lemma ndtr_0 : Normal.ndtr 0 = 1 / 2.
Proof.
  unfold Normal.ndtr.
  replace (0 / sqrt 2) with 0 by (unfold Rdiv; now rewrite Rmult_0_l).
  rewrite erf_0. lra.
Qed.

Lemma sqrt_2PI_pos : 0 < sqrt (2 * PI).
Proof. apply sqrt_lt_R0. pose proof PI_RGT_0. lra. Qed.

Lemma derivable_pt_lim_ext (f g : R -> R) (x l l' : R) :
  (forall y, f y = g y) -> l = l' ->
  derivable_pt_lim f x l -> derivable_pt_lim g x l'.
Proof.
  intros Hfg <- Hf eps Heps. destruct (Hf eps Heps) as [delta Hd].
  exists delta. intros h Hh Hlt. rewrite <- !Hfg. now apply Hd.
Qed.

Lemma erf_integral_derivative (x : R) :
  derivable_pt_lim (fun y => RiemannInt (Normal.erf_integrable 0 y)) x
                   (Normal.erf_integrand x).
Proof.
  assert (Hab : x - 1 <= x + 1) by lra.
  assert (C0 : forall t, x - 1 <= t <= x + 1 ->
                         continuity_pt Normal.erf_integrand t)
    by (intros t _; apply Normal.erf_integrand_continuity).
  assert (Hx : x - 1 < x < x + 1) by lra.
  pose proof (@RiemannInt_P27 Normal.erf_integrand (x - 1) (x + 1) x
                Hab C0 Hx) as HP.
  assert (Hshift : forall y, x - 1 <= y <= x + 1 ->
            RiemannInt (Normal.erf_integrable 0 y) =
            RiemannInt (Normal.erf_integrable 0 (x - 1))
            + primitive Hab (FTC_P1 Hab C0) y).
  { intros y [Hy1 Hy2]. unfold primitive.
    destruct (Rle_dec (x - 1) y) as [r | n]; [| contradiction].
    destruct (Rle_dec y (x + 1)) as [r0 | n]; [| contradiction].
    symmetry. apply RiemannInt_P26. }
  intros eps Heps. destruct (HP eps Heps) as [delta Hd].
  assert (Hmin : 0 < Rmin delta 1)
    by (apply Rmin_pos; [apply cond_pos | lra]).
  exists (mkposreal _ Hmin). simpl. intros h Hh Hlt.
  assert (Hh1 : Rabs h < 1)
    by (eapply Rlt_le_trans; [exact Hlt | apply Rmin_r]).
  assert (Hhd : Rabs h < delta)
    by (eapply Rlt_le_trans; [exact Hlt | apply Rmin_l]).
  apply Rabs_def2 in Hh1.
  rewrite (Hshift (x + h)) by lra. rewrite (Hshift x) by lra.
  specialize (Hd h Hh Hhd).
  match goal with
  | |- Rabs (?e / h - _) < eps =>
      replace e with (primitive Hab (FTC_P1 Hab C0) (x + h)
                      - primitive Hab (FTC_P1 Hab C0) x) by ring
  end.
  exact Hd.
Qed.

Lemma erf_derivative (x : R) :
  derivable_pt_lim Normal.erf x (2 / sqrt PI * exp (- (x * x))).
Proof.
  apply (derivable_pt_lim_ext
           (mult_real_fct (2 / sqrt PI)
              (fun y => RiemannInt (Normal.erf_integrable 0 y)))
           _ x (2 / sqrt PI * Normal.erf_integrand x)).
  - intros y. reflexivity.
  - reflexivity.
  - apply derivable_pt_lim_scal, erf_integral_derivative.
Qed.

(** [Phi] is the antiderivative of the standard normal density [phi] that
    takes the value 1/2 at 0. *)
Lemma Phi_derivative (x : R) : derivable_pt_lim Spec.Phi x (Spec.phi x).
Proof.
  assert (Hpi : 0 < PI) by apply PI_RGT_0.
  assert (Hs2 : 0 < sqrt 2) by (apply sqrt_lt_R0; lra).
  assert (Hspi : 0 < sqrt PI) by (apply sqrt_lt_R0; lra).
  assert (Hin : derivable_pt_lim (fun y => y / sqrt 2) x (/ sqrt 2)).
  { apply (derivable_pt_lim_ext (mult_real_fct (/ sqrt 2) id) _ x
             (/ sqrt 2 * 1)).
    - intros y. unfold mult_real_fct, id. field. lra.
    - ring.
    - apply derivable_pt_lim_scal, derivable_pt_lim_id. }
  pose proof (derivable_pt_lim_comp _ _ _ _ _ Hin (erf_derivative (x / sqrt 2)))
    as Hc.
  pose proof (derivable_pt_lim_plus _ _ x _ _
                (derivable_pt_lim_const 1 x) Hc) as Hp.
  pose proof (derivable_pt_lim_scal _ (/ 2) x _ Hp) as Hq.
  eapply derivable_pt_lim_ext; [| | exact Hq].
  - intros y.
    unfold mult_real_fct, plus_fct, fct_cte, comp, Spec.Phi, Normal.ndtr.
    field.
  - unfold Spec.phi. rewrite sqrt_mult by lra.
    replace (x / sqrt 2 * (x / sqrt 2)) with (x ^ 2 / 2).
    2:{ replace (x / sqrt 2 * (x / sqrt 2)) with (x ^ 2 / (sqrt 2 * sqrt 2))
          by (field; lra).
        rewrite sqrt_sqrt by lra. reflexivity. }
    replace (- (x ^ 2 / 2)) with (- x ^ 2 / 2) by field.
    field. split; lra.
Qed.

(** The library's density is the closed form, at every point. *)
Lemma skewnorm_pdf_closed_form (alpha xi omega x : R) :
  0 < omega ->
  Skewnorm.pdf x alpha xi omega = Some (Spec.skew_normal_pdf alpha xi omega x).
Proof.
  intros Hw. unfold Skewnorm.pdf.
  destruct (Rlt_dec 0 omega) as [_ | H]; [| contradiction].
  f_equal. unfold Skewnorm._pdf, Spec.skew_normal_pdf, Spec.Phi, Spec.phi.
  unfold Normal._norm_cdf, Normal._norm_pdf, Normal._norm_pdf_C.
  pose proof sqrt_2PI_pos as Hs.
  destruct (Req_dec_T alpha 0) as [Ha | Ha].
  - subst alpha.
    replace (0 * (x - xi) / omega) with 0 by (field; lra).
    rewrite ndtr_0. field. split; lra.
  - replace (alpha * ((x - xi) / omega)) with (alpha * (x - xi) / omega)
      by (field; lra).
    field. split; lra.
Qed.

Lemma skewnorm_pdf_normal (xi omega x : R) :
  0 < omega ->
  Skewnorm.pdf x 0 xi omega = Some (Spec.normal_pdf xi omega x).
Proof.
  intros Hw. unfold Skewnorm.pdf.
  destruct (Rlt_dec 0 omega) as [_ | H]; [| contradiction].
  f_equal. unfold Skewnorm._pdf, Spec.normal_pdf.
  destruct (Req_dec_T 0 0) as [_ | H]; [| contradiction].
  unfold Normal._norm_pdf, Normal._norm_pdf_C.
  pose proof sqrt_2PI_pos as Hs.
  replace (- ((x - xi) / omega) ^ 2 / 2)
    with (- (x - xi) ^ 2 / (2 * omega ^ 2)) by (field; lra).
  field. split; lra.
Qed.

(** ** Extent of the sample *)

Lemma py_min_Rmin (a b : R) : App.py_min a b = Rmin a b.
Proof.
  unfold App.py_min, Rmin.
  destruct (Rlt_dec b a), (Rle_dec a b); lra.
Qed.

Lemma py_max_Rmax (a b : R) : App.py_max a b = Rmax a b.
Proof.
  unfold App.py_max, Rmax.
  destruct (Rlt_dec a b), (Rle_dec a b); lra.
Qed.

Lemma fold_Rmin_minimum (rest : list R) (v : R) :
  Spec.is_minimum (fold_left Rmin rest v) (v :: rest).
Proof.
  revert v. induction rest as [| w rest IH]; intros v; simpl.
  - split; [now left |]. intros u [-> | []]. lra.
  - destruct (IH (Rmin v w)) as [Hin Hle]. split.
    + destruct Hin as [Heq | Hin].
      * rewrite <- Heq. unfold Rmin. destruct (Rle_dec v w); simpl; auto.
      * simpl. auto.
    + intros u Hu.
      assert (Hm : fold_left Rmin rest (Rmin v w) <= Rmin v w)
        by (apply Hle; now left).
      destruct Hu as [-> | [-> | Hu]].
      * pose proof (Rmin_l u w). lra.
      * pose proof (Rmin_r v u). lra.
      * apply Hle. now right.
Qed.

Lemma fold_Rmax_maximum (rest : list R) (v : R) :
  Spec.is_maximum (fold_left Rmax rest v) (v :: rest).
Proof.
  revert v. induction rest as [| w rest IH]; intros v; simpl.
  - split; [now left |]. intros u [-> | []]. lra.
  - destruct (IH (Rmax v w)) as [Hin Hle]. split.
    + destruct Hin as [Heq | Hin].
      * rewrite <- Heq. unfold Rmax. destruct (Rle_dec v w); simpl; auto.
      * simpl. auto.
    + intros u Hu.
      assert (Hm : Rmax v w <= fold_left Rmax rest (Rmax v w))
        by (apply Hle; now left).
      destruct Hu as [-> | [-> | Hu]].
      * pose proof (Rmax_l u w). lra.
      * pose proof (Rmax_r v u). lra.
      * apply Hle. now right.
Qed.

Lemma ndarray_min_spec (a : list R) :
  a <> [] -> exists lo, Numpy.ndarray_min a = Some lo /\ Spec.is_minimum lo a.
Proof.
  destruct a as [| v rest]; [congruence |]. intros _.
  eexists. split; [reflexivity | apply fold_Rmin_minimum].
Qed.

Lemma ndarray_max_spec (a : list R) :
  a <> [] -> exists hi, Numpy.ndarray_max a = Some hi /\ Spec.is_maximum hi a.
Proof.
  destruct a as [| v rest]; [congruence |]. intros _.
  eexists. split; [reflexivity | apply fold_Rmax_maximum].
Qed.

(** ** [linspace] *)

Lemma set_last_length (y : list R) (stop : R) :
  length (Numpy.set_last y stop) = length y.
Proof.
  induction y as [| v [| w rest] IH]; simpl in *; auto.
Qed.

Lemma set_last_nth (y : list R) (stop d : R) (i : nat) :
  (i < length y)%nat ->
  nth i (Numpy.set_last y stop) d =
  if (i =? length y - 1)%nat then stop else nth i y d.
Proof.
  revert i. induction y as [| v [| w rest] IH]; intros i Hi.
  - simpl in Hi. lia.
  - simpl in Hi. assert (i = 0%nat) by lia. subst. reflexivity.
  - change (Numpy.set_last (v :: w :: rest) stop)
      with (v :: Numpy.set_last (w :: rest) stop).
    destruct i as [| i].
    + reflexivity.
    + change (nth (S i) (v :: Numpy.set_last (w :: rest) stop) d)
        with (nth i (Numpy.set_last (w :: rest) stop) d).
      rewrite IH by (simpl in *; lia).
      simpl length. replace (S (S (length rest)) - 1)%nat
        with (S (S (length rest) - 1)) by lia.
      reflexivity.
Qed.

Lemma arange_nth (f : R -> R) (num i : nat) (d : R) :
  (i < num)%nat -> nth i (map f (map INR (seq 0 num))) d = f (INR i).
Proof.
  intros Hi. rewrite map_map.
  rewrite (nth_indep _ d (f (INR 0))) by (rewrite length_map, length_seq; lia).
  rewrite (map_nth (fun k => f (INR k))). now rewrite seq_nth.
Qed.

Lemma linspace_length (start stop : R) (num : nat) (endpoint : bool) :
  length (Numpy.linspace start stop num endpoint) = num.
Proof.
  unfold Numpy.linspace.
  destruct (endpoint && (1 <? num)%nat)%bool;
    rewrite ?set_last_length, length_map;
    destruct (0 <? _)%nat; try destruct (Req_dec_T _ _);
    now rewrite !length_map, length_seq.
Qed.

Lemma linspace_nth (start stop : R) (num i : nat) :
  (2 <= num)%nat -> (i < num)%nat ->
  nth i (Numpy.linspace start stop num true) 0 =
  start + INR i * ((stop - start) / INR (num - 1)).
Proof.
  intros Hnum Hi. unfold Numpy.linspace.
  assert (Hdiv : 0 < INR (num - 1)) by (apply lt_0_INR; lia).
  replace (true && (1 <? num)%nat)%bool with true
    by (symmetry; apply Nat.ltb_lt; lia).
  replace (0 <? num - 1)%nat with true by (symmetry; apply Nat.ltb_lt; lia).
  rewrite set_last_nth.
  2:{ destruct (Req_dec_T _ _); now rewrite !length_map, length_seq. }
  replace (length _) with num.
  2:{ destruct (Req_dec_T _ _); now rewrite !length_map, length_seq. }
  destruct (Nat.eqb_spec i (num - 1)) as [-> | Hne].
  - field. lra.
  - destruct (Req_dec_T ((stop - start) / INR (num - 1)) 0) as [Hz | Hz].
    + rewrite map_map, arange_nth by exact Hi.
      assert (stop - start = 0).
      { apply Rmult_eq_reg_r with (/ INR (num - 1)).
        - unfold Rdiv in Hz. lra.
        - apply Rinv_neq_0_compat. lra. }
      rewrite Hz. replace (stop - start) with 0. lra.
    + rewrite map_map, arange_nth by exact Hi. lra.
Qed.

Lemma linearly_spaced_ends (lo hi : R) (num : nat) (xs : list R) :
  (2 <= num)%nat -> Spec.linearly_spaced lo hi num xs ->
  nth 0 xs 0 = lo /\ nth (num - 1) xs 0 = hi /\
  forall i, (S i < num)%nat ->
    nth (S i) xs 0 - nth i xs 0 = (hi - lo) / INR (num - 1).
Proof.
  intros Hnum [_ Hnth].
  assert (Hdiv : 0 < INR (num - 1)) by (apply lt_0_INR; lia).
  repeat split.
  - rewrite Hnth by lia. simpl. lra.
  - rewrite Hnth by lia. field. lra.
  - intros i Hi. rewrite !Hnth by lia. rewrite S_INR. lra.
Qed.

Lemma linearly_spaced_increasing (lo hi : R) (num : nat) (xs : list R) :
  (2 <= num)%nat -> lo < hi -> Spec.linearly_spaced lo hi num xs ->
  Spec.strictly_increasing xs.
Proof.
  intros Hnum Hlt [Hlen Hnth] i j Hij. rewrite Hlen in Hij.
  rewrite !Hnth by lia.
  assert (Hdiv : 0 < INR (num - 1)) by (apply lt_0_INR; lia).
  assert (Hh : 0 < (hi - lo) / INR (num - 1))
    by (apply Rdiv_lt_0_compat; lra).
  assert (Hinr : INR i < INR j) by (apply lt_INR; lia).
  apply Rplus_lt_compat_l, Rmult_lt_compat_r; assumption.
Qed.

(** ** The domain of the density curve *)

Lemma x_pdf_defined (generated_data : list R) (loc scale : R) :
  generated_data <> [] ->
  exists lo hi,
    Spec.is_minimum lo generated_data /\ Spec.is_maximum hi generated_data /\
    App.x_min generated_data loc scale = Some (Rmin lo (loc - 4 * scale)) /\
    App.x_max generated_data loc scale = Some (Rmax hi (loc + 4 * scale)) /\
    App.x_pdf generated_data loc scale =
    Some (Numpy.linspace (Rmin lo (loc - 4 * scale))
                         (Rmax hi (loc + 4 * scale)) 500 true).
Proof.
  intros Hne.
  destruct (ndarray_min_spec generated_data Hne) as (lo & Hlo & Hmin).
  destruct (ndarray_max_spec generated_data Hne) as (hi & Hhi & Hmax).
  exists lo, hi. unfold App.x_pdf, App.x_min, App.x_max.
  rewrite Hlo, Hhi. simpl. rewrite py_min_Rmin, py_max_Rmax. auto.
Qed.

(** C3.  For every non-empty sample and every location and scale, the
    x-values of the density curve are exactly 500 points, in equal steps
    from [min(sample minimum, xi - 4 omega)] to
    [max(sample maximum, xi + 4 omega)]. *)
Theorem x_pdf_500_points_linearly_spaced
    (generated_data : list R) (loc scale : R) :
  generated_data <> [] ->
  exists lo hi xs,
    Spec.is_minimum lo generated_data /\ Spec.is_maximum hi generated_data /\
    App.x_pdf generated_data loc scale = Some xs /\
    Spec.linearly_spaced (Rmin lo (loc - 4 * scale))
                         (Rmax hi (loc + 4 * scale)) 500 xs.
Proof.
  intros Hne.
  destruct (x_pdf_defined generated_data loc scale Hne)
    as (lo & hi & Hmin & Hmax & _ & _ & Hx).
  exists lo, hi. eexists. repeat split; try eassumption.
  - apply Hmin.
  - apply Hmin.
  - apply Hmax.
  - apply Hmax.
  - apply linspace_length.
  - intros i Hi. apply linspace_nth; lia.
Qed.

Lemma x_pdf_500_points_linearly_spaced_witness :
  exists lo hi xs,
    Spec.is_minimum lo [2; -1; 7] /\ Spec.is_maximum hi [2; -1; 7] /\
    App.x_pdf [2; -1; 7] 0 1 = Some xs /\
    Spec.linearly_spaced (Rmin lo (0 - 4 * 1)) (Rmax hi (0 + 4 * 1)) 500 xs.
Proof.
  apply (x_pdf_500_points_linearly_spaced [2; -1; 7] 0 1). discriminate.
Defined.

(** C10.  For every non-empty sample and every scale of at least 0.1 the
    domain of the density curve reaches from at most [xi - 4 omega] to at
    least [xi + 4 omega], so it is at least [8 omega > 0] wide and contains
    [xi], and the 500 x-values are strictly increasing. *)
Theorem x_pdf_domain_well_formed (generated_data : list R) (loc scale : R) :
  1 / 10 <= scale -> generated_data <> [] ->
  exists lo hi xs,
    App.x_min generated_data loc scale = Some lo /\
    App.x_max generated_data loc scale = Some hi /\
    App.x_pdf generated_data loc scale = Some xs /\
    lo <= loc - 4 * scale /\ loc + 4 * scale <= hi /\
    0 < 8 * scale <= hi - lo /\ lo <= loc <= hi /\
    length xs = 500%nat /\ Spec.strictly_increasing xs.
Proof.
  intros Hs Hne.
  destruct (x_pdf_defined generated_data loc scale Hne)
    as (lo & hi & _ & _ & Hlo & Hhi & Hx).
  pose proof (Rmin_r lo (loc - 4 * scale)) as Hl.
  pose proof (Rmax_r hi (loc + 4 * scale)) as Hr.
  do 2 eexists. exists (Numpy.linspace (Rmin lo (loc - 4 * scale))
                                      (Rmax hi (loc + 4 * scale)) 500 true).
  repeat split; try eassumption; try lra.
  - apply linspace_length.
  - apply (linearly_spaced_increasing
             (Rmin lo (loc - 4 * scale)) (Rmax hi (loc + 4 * scale)) 500).
    + lia.
    + lra.
    + split; [apply linspace_length |].
      intros i Hi. apply linspace_nth; lia.
Qed.

Lemma x_pdf_domain_well_formed_witness :
  exists lo hi xs,
    App.x_min [2; -1; 7] 3 (1 / 10) = Some lo /\
    App.x_max [2; -1; 7] 3 (1 / 10) = Some hi /\
    App.x_pdf [2; -1; 7] 3 (1 / 10) = Some xs /\
    lo <= 3 - 4 * (1 / 10) /\ 3 + 4 * (1 / 10) <= hi /\
    0 < 8 * (1 / 10) <= hi - lo /\ lo <= 3 <= hi /\
    length xs = 500%nat /\ Spec.strictly_increasing xs.
Proof.
  apply (x_pdf_domain_well_formed [2; -1; 7] 3 (1 / 10)).
  - lra.
  - discriminate.
Defined.

(** ** The density curve *)



(** C2.  With shape 0 and [omega > 0] the density evaluator returns the
    normal density with mean [xi] and standard deviation [omega],
    [(1/(omega sqrt(2 pi))) exp(-(x - xi)^2 / (2 omega^2))], for every [x]
    and so along the whole curve. *)
Theorem pdf_values_normal_when_shape_zero
    (generated_data : list R) (xi omega : R) :
  0 < omega ->
  (forall x, Skewnorm.pdf x 0 xi omega = Some (Spec.normal_pdf xi omega x)) /\
  App.pdf_values generated_data 0 xi omega =
  option_map (map (fun x => Some (Spec.normal_pdf xi omega x)))
             (App.x_pdf generated_data xi omega).
Proof.
  intros Hw. split.
  - intros x. now apply skewnorm_pdf_normal.
  - unfold App.pdf_values.
    destruct (App.x_pdf generated_data xi omega) as [xs |]; [| reflexivity].
    simpl. f_equal. apply map_ext. intros x. now apply skewnorm_pdf_normal.
Qed.

Lemma pdf_values_normal_when_shape_zero_witness :
  (forall x, Skewnorm.pdf x 0 0 1 = Some (Spec.normal_pdf 0 1 x)) /\
  App.pdf_values [2; -1; 7] 0 0 1 =
  option_map (map (fun x => Some (Spec.normal_pdf 0 1 x)))
             (App.x_pdf [2; -1; 7] 0 1).
Proof.
  apply (pdf_values_normal_when_shape_zero [2; -1; 7] 0 1). lra.
Defined.

(** ** Sample statistics *)

Lemma sum_map_total (f : R -> R) (a : list R) :
  Numpy.sum (map f a) = Spec.total f a.
Proof.
  unfold Numpy.sum.
  induction a as [| v a IH]; simpl; [reflexivity | now rewrite IH].
Qed.

Lemma mean_average (a : list R) : Numpy.mean a = Spec.average a.
Proof.
  unfold Numpy.mean, Spec.average.
  rewrite <- (sum_map_total (fun v => v)), map_id. reflexivity.
Qed.

Lemma mean_map_total (f : R -> R) (a : list R) :
  Numpy.mean (map f a) = Spec.total f a / INR (length a).
Proof.
  unfold Numpy.mean. now rewrite sum_map_total, length_map.
Qed.

Lemma moment_central_moment (k : nat) (a : list R) :
  Stats._moment a k (Numpy.mean a) = Spec.central_moment k a.
Proof.
  unfold Stats._moment, Spec.central_moment.
  rewrite mean_map_total, mean_average. reflexivity.
Qed.

Lemma total_ext (f g : R -> R) (a : list R) :
  (forall v, f v = g v) -> Spec.total f a = Spec.total g a.
Proof.
  intros H. induction a as [| v a IH]; simpl; [reflexivity |].
  now rewrite H, IH.
Qed.

Lemma total_nonneg (f : R -> R) (a : list R) :
  (forall v, 0 <= f v) -> 0 <= Spec.total f a.
Proof.
  intros H. induction a as [| v a IH]; simpl; [lra |].
  specialize (H v). lra.
Qed.

Lemma length_pos (a : list R) : a <> [] -> 0 < INR (length a).
Proof.
  destruct a; [congruence |]. intros _. apply lt_0_INR. simpl. lia.
Qed.

Lemma var_central_moment (a : list R) :
  Numpy.var a 0 = Spec.central_moment 2 a.
Proof.
  unfold Numpy.var, Spec.central_moment.
  rewrite map_map, sum_map_total, mean_average.
  simpl INR. rewrite Rminus_0_r, Rmax_left by apply pos_INR.
  f_equal. apply total_ext. intros v. ring.
Qed.

(** C5.  For every non-empty sample the reported standard deviation is the
    population standard deviation, the square root of the mean squared
    deviation from the sample mean with divisor [N]; it is strictly less
    than the estimate with divisor [N - 1] whenever the sample has spread. *)
Theorem sample_std_dev_population (generated_data : list R) :
  generated_data <> [] ->
  App.sample_std_dev generated_data = Spec.population_std_dev generated_data /\
  (0 < Spec.central_moment 2 generated_data ->
   App.sample_std_dev generated_data < Spec.corrected_std_dev generated_data).
Proof.
  intros Hne. pose proof (length_pos _ Hne) as HN.
  assert (Heq : App.sample_std_dev generated_data =
                Spec.population_std_dev generated_data).
  { unfold App.sample_std_dev, Numpy.std. now rewrite var_central_moment. }
  split; [exact Heq |].
  intros Hm2. rewrite Heq.
  unfold Spec.population_std_dev, Spec.corrected_std_dev.
  unfold Spec.central_moment in Hm2.
  set (S2 := Spec.total _ generated_data) in *.
  set (N := INR (length generated_data)) in *.
  assert (HS : 0 < S2).
  { unfold Rdiv in Hm2.
    apply (Rmult_lt_reg_r (/ N)); [now apply Rinv_0_lt_compat | lra]. }
  destruct (Rle_lt_dec N 1) as [Hle | Hgt].
  - (* a single observation: the divisor [N - 1] is zero *)
    exfalso.
    destruct generated_data as [| v [| w rest]]; [congruence | |].
    + unfold S2, Spec.average in HS. simpl in HS.
      replace (v - (v + 0) / 1) with 0 in HS by field. lra.
    + unfold N in Hle. simpl length in Hle. rewrite !S_INR in Hle.
      pose proof (pos_INR (length rest)). lra.
  - apply sqrt_lt_1_alt. split; [lra |].
    unfold Rdiv. apply Rmult_lt_compat_l; [exact HS |].
    apply Rinv_lt_contravar; nra.
Qed.

Lemma sample_std_dev_population_witness :
  App.sample_std_dev [0; 2] = Spec.population_std_dev [0; 2] /\
  (0 < Spec.central_moment 2 [0; 2] ->
   App.sample_std_dev [0; 2] < Spec.corrected_std_dev [0; 2]).
Proof.
  apply (sample_std_dev_population [0; 2]). discriminate.
Defined.


Lemma skew_biased (a : list R) :
  Stats.skew a true =
  if Rle_dec (Spec.central_moment 2 a)
             ((Stats.resolution * Spec.average a) ^ 2)
  then None else Some (Spec.g1 a).
Proof.
  unfold Stats.skew. rewrite !moment_central_moment, mean_average.
  simpl negb. simpl andb.
  destruct (Rle_dec _ _); reflexivity.
Qed.

Lemma skew_biased_spread (a : list R) :
  (Stats.resolution * Spec.average a) ^ 2 < Spec.central_moment 2 a ->
  Stats.skew a true = Some (Spec.g1 a).
Proof.
  intros Hm2. rewrite skew_biased.
  destruct (Rle_dec _ _); [lra | reflexivity].
Qed.





(** ** The sidebar *)

Section Sidebar.

Local Open Scope Q_scope.
Import Streamlit.

Lemma inject_Z_nonneg (n : Z) : (0 <= n)%Z -> 0 <= inject_Z n.
Proof. intros H. change 0 with (inject_Z 0). now rewrite <- Zle_Qle. Qed.

(** A slider whose default lies between its bounds returns a value
    between its bounds, whatever the user does. *)
Lemma slider_in_range (s : FloatSlider) (state : option nat) :
  0 < step s -> min_value s <= value s <= max_value s ->
  min_value s <= slider s state <= max_value s.
Proof.
  intros Hstep Hval. destruct state as [k |]; simpl; [| exact Hval].
  set (n := Z.min (Z.of_nat k) (last_tick s)).
  assert (Hspan : 0 <= (max_value s - min_value s) / step s).
  { apply Qle_shift_div_l; [exact Hstep | lra]. }
  assert (Hlast : (0 <= last_tick s)%Z).
  { unfold last_tick. rewrite <- (Qfloor_Z 0).
    now apply Qfloor_resp_le. }
  assert (Hn0 : 0 <= inject_Z n) by (apply inject_Z_nonneg; lia).
  assert (Hn1 : inject_Z n <= (max_value s - min_value s) / step s).
  { apply Qle_trans with (inject_Z (last_tick s)).
    - rewrite <- Zle_Qle. lia.
    - apply Qfloor_le. }
  assert (Hmul : inject_Z n * step s <= max_value s - min_value s).
  { apply (Qmult_le_compat_r _ _ (step s)) in Hn1; [| lra].
    assert (Hcancel : (max_value s - min_value s) / step s * step s
                      == max_value s - min_value s) by (field; lra).
    rewrite Hcancel in Hn1. exact Hn1. }
  split; nra.
Qed.

Lemma int_slider_in_range (s : IntSlider) (state : option nat) :
  (0 < istep s)%Z -> (imin_value s <= ivalue s <= imax_value s)%Z ->
  (imin_value s <= int_slider s state <= imax_value s)%Z.
Proof.
  intros Hstep Hval. destruct state as [k |]; simpl; [| exact Hval].
  unfold ilast_tick.
  set (span := (imax_value s - imin_value s)%Z).
  assert (Hspan : (0 <= span)%Z) by (unfold span; lia).
  pose proof (Z.mul_div_le span (istep s) Hstep) as Hq.
  assert (Hq0 : (0 <= span / istep s)%Z) by (apply Z.div_pos; lia).
  set (n := Z.min (Z.of_nat k) (span / istep s)).
  assert (Hn : (0 <= n <= span / istep s)%Z) by (unfold n; lia).
  assert (Hmul : (n * istep s <= span)%Z) by nia.
  unfold span in Hmul. split; nia.
Qed.

End Sidebar.

(** The sample of a run is never empty. *)
Lemma drawn_nonempty (ui : App.Sidebar) (generated_data : list R) :
  App.drawn (App.read_sidebar ui) generated_data -> generated_data <> [].
Proof.
  unfold App.drawn. intros Hlen ->. simpl in Hlen.
  pose proof (int_slider_in_range App.n_samples_slider
                (App.n_samples_state ui)) as Hrange.
  simpl in Hrange. lia.
Qed.

Section Parameters.

Local Open Scope Q_scope.
Import Streamlit.

(** C8.  Whatever the user does to the four sliders, the values handed
    to the sampler and to the density evaluator satisfy
    [100 <= N <= 10000], [-10 <= alpha <= 10], [-10 <= xi <= 10] and
    [0.1 <= omega <= 10]; in particular [omega > 0], so that the density
    evaluator's own check of the scale never fails. *)
Theorem parameters_within_bounds (ui : App.Sidebar) :
  let p := App.read_sidebar ui in
  (100 <= App.n_samples p <= 10000)%Z /\
  -10 <= App.skew_param p <= 10 /\
  -10 <= App.loc_param p <= 10 /\
  1 # 10 <= App.scale_param p <= 10 /\
  (0 < Q2R (App.scale_param p))%R /\
  forall x : R,
    Skewnorm.pdf x (Q2R (App.skew_param p)) (Q2R (App.loc_param p))
                   (Q2R (App.scale_param p)) <> None.
Proof.
  intros p.
  assert (HN : (100 <= App.n_samples p <= 10000)%Z).
  { apply (int_slider_in_range App.n_samples_slider); simpl; lia. }
  assert (Ha : -10 <= App.skew_param p <= 10).
  { apply (slider_in_range App.skew_param_slider); simpl; lra. }
  assert (Hl : -10 <= App.loc_param p <= 10).
  { apply (slider_in_range App.loc_param_slider); simpl; lra. }
  assert (Hs : 1 # 10 <= App.scale_param p <= 10).
  { apply (slider_in_range App.scale_param_slider); simpl; lra. }
  assert (Hpos : (0 < Q2R (App.scale_param p))%R).
  { rewrite <- RMicromega.Q2R_0. apply Qlt_Rlt. lra. }
  repeat split; try tauto.
  intros x. unfold Skewnorm.pdf.
  destruct (Rlt_dec 0 (Q2R (App.scale_param p))); [discriminate | tauto].
Qed.

End Parameters.

(** ** The chart title *)

Section Title.

Local Open Scope Q_scope.
Import Streamlit.

Lemma sign_comp (q q' : Q) : q == q' -> (Qnum q <? 0)%Z = (Qnum q' <? 0)%Z.
Proof.
  unfold Qeq. intros H.
  destruct (Z.ltb_spec (Qnum q) 0), (Z.ltb_spec (Qnum q') 0); auto; nia.
Qed.

Lemma round_half_even_comp (q q' : Q) :
  q == q' -> App.round_half_even q = App.round_half_even q'.
Proof.
  intros H. unfold App.round_half_even.
  rewrite (Qfloor_comp _ _ H).
  assert (Hc : (q - inject_Z (Qfloor q') ?= 1 # 2)
               = (q' - inject_Z (Qfloor q') ?= 1 # 2))
    by now rewrite H.
  now rewrite Hc.
Qed.

Lemma round_half_even_integer (z : Z) : App.round_half_even (inject_Z z) = z.
Proof.
  unfold App.round_half_even. rewrite Qfloor_Z.
  assert (Hc : (inject_Z z - inject_Z z ?= 1 # 2) = Lt).
  { rewrite <- Qlt_alt. lra. }
  now rewrite Hc.
Qed.

Lemma format_1f_comp (q q' : Q) :
  q == q' -> App.format_1f q = App.format_1f q'.
Proof.
  intros H. unfold App.format_1f.
  rewrite (sign_comp _ _ H).
  rewrite (round_half_even_comp (Qabs q * 10) (Qabs q' * 10))
    by now rewrite H.
  reflexivity.
Qed.

(** A number of tenths is printed exactly. *)
Lemma format_1f_tenths (t : Z) :
  App.format_1f (t # 10) =
  Spec.numeral_1f (t <? 0)%Z (Z.abs t / 10) (Z.abs t mod 10) /\
  t # 10 == Spec.numeral_value (t <? 0)%Z (Z.abs t / 10) (Z.abs t mod 10).
Proof.
  split.
  - unfold App.format_1f, Spec.numeral_1f.
    rewrite (round_half_even_comp _ (inject_Z (Z.abs t))).
    + now rewrite round_half_even_integer.
    + unfold Qabs, Qeq, inject_Z. simpl. lia.
  - pose proof (Z.div_mod (Z.abs t) 10 ltac:(lia)) as Hdm.
    set (u := (Z.abs t / 10)%Z) in *. set (r := (Z.abs t mod 10)%Z) in *.
    unfold Spec.numeral_value.
    destruct (Z.ltb_spec t 0) as [Hneg | Hpos].
    + assert (Ht : t # 10 == - (inject_Z (Z.abs t) / 10)).
      { unfold Qeq, Qdiv, Qopp, Qmult, Qinv, inject_Z. simpl. lia. }
      rewrite Ht, Hdm, inject_Z_plus, inject_Z_mult. field.
    + assert (Ht : t # 10 == inject_Z (Z.abs t) / 10).
      { unfold Qeq, Qdiv, Qmult, Qinv, inject_Z. simpl. lia. }
      rewrite Ht, Hdm, inject_Z_plus, inject_Z_mult. field.
Qed.

Lemma format_1f_shows (q : Q) (t : Z) :
  q == t # 10 -> Spec.shows q (App.format_1f q).
Proof.
  intros Hq. destruct (format_1f_tenths t) as [Hfmt Hval].
  exists (t <? 0)%Z, (Z.abs t / 10)%Z, (Z.abs t mod 10)%Z.
  split; [apply Z.div_pos; lia |].
  split; [apply Z.mod_pos_bound; lia |].
  split.
  - rewrite (format_1f_comp _ _ Hq). exact Hfmt.
  - rewrite Hq. exact Hval.
Qed.

(** Every position of a slider from [lo/10] in steps of 0.1 is a number
    of tenths. *)
Lemma slider_tenths (s : FloatSlider) (state : option nat) (lo v : Z) :
  min_value s == lo # 10 -> value s == v # 10 -> step s == 1 # 10 ->
  exists t, slider s state == t # 10.
Proof.
  intros Hmin Hval Hstep. destruct state as [k |]; simpl.
  - exists (lo + Z.min (Z.of_nat k) (last_tick s))%Z.
    rewrite Hmin, Hstep.
    unfold Qeq, Qplus, Qmult, inject_Z. simpl. lia.
  - now exists v.
Qed.

Lemma parameters_tenths (ui : App.Sidebar) :
  let p := App.read_sidebar ui in
  (exists t, App.skew_param p == t # 10) /\
  (exists t, App.loc_param p == t # 10) /\
  (exists t, App.scale_param p == t # 10).
Proof.
  simpl. repeat split.
  - apply (slider_tenths App.skew_param_slider _ (-100) 0); reflexivity.
  - apply (slider_tenths App.loc_param_slider _ (-100) 0); reflexivity.
  - apply (slider_tenths App.scale_param_slider _ 1 10); reflexivity.
Qed.

(** C7.  The chart title names the regime "Normal" exactly when
    [|alpha| < 0.01] and "Skew-Normal" otherwise, and it carries the current
    alpha, xi and omega: each is printed with one decimal, which for the
    values the sliders return is the value itself. *)
Theorem title_regime_and_parameters (p : App.Parameters) :
  (App.distribution_name (App.skew_param p) = "Normal"%string <->
   Qabs (App.skew_param p) < 1 # 100) /\
  (App.distribution_name (App.skew_param p) = "Skew-Normal"%string <->
   ~ Qabs (App.skew_param p) < 1 # 100) /\
  App.title p =
  (App.distribution_name (App.skew_param p) ++ " Distribution (α="
   ++ App.format_1f (App.skew_param p) ++ ", ξ="
   ++ App.format_1f (App.loc_param p) ++ ", ω="
   ++ App.format_1f (App.scale_param p) ++ ")")%string /\
  (forall ui, p = App.read_sidebar ui ->
     Spec.shows (App.skew_param p) (App.format_1f (App.skew_param p)) /\
     Spec.shows (App.loc_param p) (App.format_1f (App.loc_param p)) /\
     Spec.shows (App.scale_param p) (App.format_1f (App.scale_param p))).
Proof.
  split; [| split; [| split]].
  - unfold App.distribution_name.
    destruct (Qlt_le_dec _ _) as [Hlt | Hge]; split; intros H;
      try reflexivity; try assumption; try discriminate; lra.
  - unfold App.distribution_name.
    destruct (Qlt_le_dec _ _) as [Hlt | Hge]; split; intros H;
      try reflexivity; try discriminate; try lra; contradiction.
  - reflexivity.
  - intros ui ->.
    destruct (parameters_tenths ui) as ((ta & Ha) & (tl & Hl) & (ts & Hs)).
    repeat split.
    + exact (format_1f_shows _ ta Ha).
    + exact (format_1f_shows _ tl Hl).
    + exact (format_1f_shows _ ts Hs).
Qed.

Lemma title_regime_and_parameters_witness :
  let ui := {| App.n_samples_state := None;
               App.skew_param_state := Some 3%nat;
               App.loc_param_state := Some 250%nat;
               App.scale_param_state := Some 14%nat |} in
  App.title (App.read_sidebar ui) =
  "Skew-Normal Distribution (α=-9.7, ξ=10.0, ω=1.5)"%string /\
  Spec.shows (App.skew_param (App.read_sidebar ui)) "-9.7".
Proof.
  intros ui.
  destruct (title_regime_and_parameters (App.read_sidebar ui))
    as (_ & _ & Htitle & Hshows).
  split.
  - rewrite Htitle. reflexivity.
  - exact (proj1 (Hshows ui eq_refl)).
Defined.

End Title.

(** ** Worked examples *)

Example linspace_quarters :
  Numpy.linspace 0 1 5 true = [0; 1 / 4; 1 / 2; 3 / 4; 1].
Proof.
  unfold Numpy.linspace. simpl.
  destruct (Req_dec_T _ _) as [H | H]; [exfalso; lra |].
  simpl. repeat (f_equal; try lra).
Qed.

Example linspace_constant : Numpy.linspace 2 2 3 true = [2; 2; 2].
Proof.
  unfold Numpy.linspace. simpl.
  destruct (Req_dec_T _ _) as [H | H]; simpl; repeat (f_equal; try lra).
Qed.

Example std_dev_of_0_2 : App.sample_std_dev [0; 2] = 1.
Proof.
  unfold App.sample_std_dev, Numpy.std. rewrite var_central_moment.
  unfold Spec.central_moment, Spec.average. simpl.
  replace (_ / (1 + 1)) with 1 by field.
  apply sqrt_1.
Qed.

Lemma pow_1_5_sqrt (x : R) : 0 < x -> Stats.pow_1_5 x = x * sqrt x.
Proof.
  intros Hx. unfold Stats.pow_1_5.
  replace (3 / 2) with (1 + / 2) by field.
  now rewrite Rpower_plus, Rpower_1, Rpower_sqrt.
Qed.

Example skewness_of_0_0_3 : App.sample_skewness [0; 0; 3] = Some (/ sqrt 2).
Proof.
  assert (Hm2 : Spec.central_moment 2 [0; 0; 3] = 2)
    by (unfold Spec.central_moment, Spec.average; simpl; field).
  assert (Hm3 : Spec.central_moment 3 [0; 0; 3] = 2)
    by (unfold Spec.central_moment, Spec.average; simpl; field).
  assert (Havg : Spec.average [0; 0; 3] = 1)
    by (unfold Spec.average; simpl; field).
  unfold App.sample_skewness. rewrite skew_biased_spread.
  2:{ rewrite Hm2, Havg. unfold Stats.resolution.
      assert (Hr : 0 < / 10 ^ 15 < 1).
      { split; [apply Rinv_0_lt_compat; lra |].
        rewrite <- Rinv_1. apply Rinv_lt_contravar; lra. }
      nra. }
  unfold Spec.g1. rewrite Hm2, Hm3.
  change (Rpower 2 (3 / 2)) with (Stats.pow_1_5 2).
  rewrite pow_1_5_sqrt by lra.
  assert (Hs : 0 < sqrt 2) by (apply sqrt_lt_R0; lra).
  f_equal. field. lra.
Qed.

Example format_rounds_half_to_even :
  App.format_1f (25 # 100) = "0.2"%string /\
  App.format_1f (35 # 100) = "0.4"%string /\
  App.format_1f (-4 # 100) = "-0.0"%string /\
  App.format_1f (-1234 # 100) = "-12.3"%string.
Proof. repeat split; reflexivity. Qed.

(** The untouched sidebar: [N = 2000], [alpha = 0], [xi = 0], [omega = 1].
    The title names the normal regime and the density at 0 is
    [1/sqrt(2 pi)]. *)
Example default_run :
  let p := App.read_sidebar
             {| App.n_samples_state := None; App.skew_param_state := None;
                App.loc_param_state := None; App.scale_param_state := None |} in
  App.n_samples p = 2000%Z /\
  App.title p = "Normal Distribution (α=0.0, ξ=0.0, ω=1.0)"%string /\
  Skewnorm.pdf 0 (Q2R (App.skew_param p)) (Q2R (App.loc_param p))
                 (Q2R (App.scale_param p)) = Some (1 / sqrt (2 * PI)).
Proof.
  simpl. repeat split.
  replace (Q2R 0) with 0 by (unfold Q2R; simpl; field).
  replace (Q2R 1) with 1 by (unfold Q2R; simpl; field).
  rewrite skewnorm_pdf_normal by lra. f_equal.
  unfold Spec.normal_pdf.
  replace (- (0 - 0) ^ 2 / (2 * 1 ^ 2)) with 0 by field.
  rewrite exp_0. pose proof sqrt_2PI_pos. field. lra.
Qed.

(** * Further properties *)

(** ** Shape of the density *)

Lemma phi_pos (z : R) : 0 < Spec.phi z.
Proof.
  unfold Spec.phi. apply Rdiv_lt_0_compat; [apply exp_pos | apply sqrt_2PI_pos].
Qed.

Lemma phi_even (z : R) : Spec.phi (- z) = Spec.phi z.
Proof. unfold Spec.phi. f_equal. f_equal. field. Qed.

Lemma Phi_increasing (x y : R) : x < y -> Spec.Phi x < Spec.Phi y.
Proof.
  intros Hxy.
  destruct (MVT_cor2 Spec.Phi Spec.phi x y Hxy) as (c & Hc & _).
  - intros c _. apply Phi_derivative.
  - pose proof (phi_pos c) as Hp.
    assert (0 < Spec.phi c * (y - x)) by (apply Rmult_lt_0_compat; lra).
    lra.
Qed.

Lemma Phi_mirror_derivative (c : R) :
  derivable_pt_lim (fun x => Spec.Phi x + Spec.Phi (- x)) c 0.
Proof.
  assert (Hopp : derivable_pt_lim (fun x => - x) c (- 1)).
  { apply (derivable_pt_lim_ext (- id)%F _ c (- 1)).
    - intros y. reflexivity.
    - reflexivity.
    - apply derivable_pt_lim_opp, derivable_pt_lim_id. }
  pose proof (derivable_pt_lim_comp _ _ _ _ _ Hopp (Phi_derivative (- c)))
    as Hc.
  pose proof (derivable_pt_lim_plus _ _ c _ _ (Phi_derivative c) Hc) as Hs.
  eapply derivable_pt_lim_ext; [| | exact Hs].
  - intros y. reflexivity.
  - rewrite phi_even. ring.
Qed.

(** [Phi(-x) = 1 - Phi(x)]. *)
Lemma Phi_reflection (x : R) : Spec.Phi (- x) = 1 - Spec.Phi x.
Proof.
  assert (H0 : Spec.Phi 0 + Spec.Phi (- 0) = 1).
  { rewrite Ropp_0. unfold Spec.Phi. rewrite ndtr_0. lra. }
  destruct (Rtotal_order x 0) as [Hx | [-> | Hx]].
  - destruct (MVT_cor2 (fun x => Spec.Phi x + Spec.Phi (- x)) (fun _ => 0)
                x 0 Hx) as (c & Hc & _).
    + intros c _. apply Phi_mirror_derivative.
    + lra.
  - rewrite Ropp_0 in *. lra.
  - destruct (MVT_cor2 (fun x => Spec.Phi x + Spec.Phi (- x)) (fun _ => 0)
                0 x Hx) as (c & Hc & _).
    + intros c _. apply Phi_mirror_derivative.
    + lra.
Qed.

Lemma Phi_half_line (x : R) :
  (0 <= x -> 1 / 2 <= Spec.Phi x) /\ (x <= 0 -> Spec.Phi x <= 1 / 2).
Proof.
  assert (H0 : Spec.Phi 0 = 1 / 2) by apply ndtr_0.
  split; intros [Hx | Hx]; subst; try lra.
  - pose proof (Phi_increasing 0 x Hx). lra.
  - pose proof (Phi_increasing x 0 Hx). lra.
Qed.

Lemma normal_pdf_phi (xi omega x : R) :
  0 < omega -> Spec.normal_pdf xi omega x = Spec.phi ((x - xi) / omega) / omega.
Proof.
  intros Hw. unfold Spec.normal_pdf, Spec.phi.
  pose proof sqrt_2PI_pos as Hs.
  replace (- ((x - xi) / omega) ^ 2 / 2)
    with (- (x - xi) ^ 2 / (2 * omega ^ 2)) by (field; lra).
  field. split; lra.
Qed.

Lemma normal_pdf_pos (xi omega x : R) :
  0 < omega -> 0 < Spec.normal_pdf xi omega x.
Proof.
  intros Hw. rewrite normal_pdf_phi by exact Hw.
  apply Rdiv_lt_0_compat; [apply phi_pos | exact Hw].
Qed.

(** The skew-normal density is the normal density weighted by [2 Phi]. *)
Lemma skew_normal_pdf_weight (alpha xi omega x : R) :
  0 < omega ->
  Spec.skew_normal_pdf alpha xi omega x =
  2 * Spec.Phi (alpha * (x - xi) / omega) * Spec.normal_pdf xi omega x.
Proof.
  intros Hw. rewrite normal_pdf_phi by exact Hw.
  unfold Spec.skew_normal_pdf. field. lra.
Qed.

(** X1.  Changing the sign of the shape mirrors the density about the
    location: the value at [xi + d] for shape [alpha] is the value at
    [xi - d] for shape [- alpha], whatever the scale ([nan] on both sides
    when the scale is not positive).  For shape 0 the curve is symmetric. *)
Theorem pdf_mirror (alpha xi omega d : R) :
  Skewnorm.pdf (xi + d) alpha xi omega =
  Skewnorm.pdf (xi - d) (- alpha) xi omega.
Proof.
  destruct (Rlt_dec 0 omega) as [Hw | Hw].
  - rewrite !skewnorm_pdf_closed_form by exact Hw. f_equal.
    unfold Spec.skew_normal_pdf.
    replace ((xi + d - xi) / omega) with (d / omega) by (field; lra).
    replace ((xi - d - xi) / omega) with (- (d / omega)) by (field; lra).
    rewrite phi_even.
    replace (alpha * (xi + d - xi) / omega)
      with (- alpha * (xi - d - xi) / omega) by (field; lra).
    reflexivity.
  - unfold Skewnorm.pdf. destruct (Rlt_dec 0 omega); [contradiction |].
    reflexivity.
Qed.

(** X2.  Relative to the normal curve with the same location and scale,
    the skew-normal density is raised where [alpha (x - xi)] is positive and
    lowered where it is negative, and the densities for [alpha] and
    [- alpha] add up to twice the normal density. *)
Theorem pdf_against_normal (alpha xi omega x : R) :
  0 < omega ->
  exists v w,
    Skewnorm.pdf x alpha xi omega = Some v /\
    Skewnorm.pdf x (- alpha) xi omega = Some w /\
    v + w = 2 * Spec.normal_pdf xi omega x /\
    (0 < alpha * (x - xi) -> Spec.normal_pdf xi omega x < v) /\
    (alpha * (x - xi) = 0 -> v = Spec.normal_pdf xi omega x) /\
    (alpha * (x - xi) < 0 -> v < Spec.normal_pdf xi omega x).
Proof.
  intros Hw. do 2 eexists.
  rewrite !skewnorm_pdf_closed_form by exact Hw.
  split; [reflexivity |]. split; [reflexivity |].
  rewrite !skew_normal_pdf_weight by exact Hw.
  pose proof (normal_pdf_pos xi omega x Hw) as Hn.
  set (n := Spec.normal_pdf xi omega x) in *.
  set (z := alpha * (x - xi) / omega).
  replace (- alpha * (x - xi) / omega) with (- z) by (unfold z; field; lra).
  rewrite Phi_reflection.
  assert (Hz : z * omega = alpha * (x - xi)) by (unfold z; field; lra).
  assert (H0 : Spec.Phi 0 = 1 / 2) by apply ndtr_0.
  repeat split.
  - ring.
  - intros Hpos. assert (0 < z) by nra.
    pose proof (Phi_increasing 0 z ltac:(lra)). nra.
  - intros Hzero. assert (z = 0) by nra. replace z with 0. rewrite H0. lra.
  - intros Hneg. assert (z < 0) by nra.
    pose proof (Phi_increasing z 0 ltac:(lra)). nra.
Qed.

Lemma pdf_against_normal_witness :
  exists v w,
    Skewnorm.pdf 3 2 1 (1 / 10) = Some v /\
    Skewnorm.pdf 3 (- 2) 1 (1 / 10) = Some w /\
    v + w = 2 * Spec.normal_pdf 1 (1 / 10) 3 /\
    (0 < 2 * (3 - 1) -> Spec.normal_pdf 1 (1 / 10) 3 < v) /\
    (2 * (3 - 1) = 0 -> v = Spec.normal_pdf 1 (1 / 10) 3) /\
    (2 * (3 - 1) < 0 -> v < Spec.normal_pdf 1 (1 / 10) 3).
Proof.
  apply (pdf_against_normal 2 1 (1 / 10) 3). lra.
Defined.

(** X3.  For a positive shape the density at [xi + d] exceeds the density
    at the mirrored point [xi - d] (the curve leans to the right); for a
    negative shape it is the other way round. *)
Theorem pdf_skew_direction (alpha xi omega d : R) :
  0 < omega -> 0 < d ->
  exists l r,
    Skewnorm.pdf (xi - d) alpha xi omega = Some l /\
    Skewnorm.pdf (xi + d) alpha xi omega = Some r /\
    (0 < alpha -> l < r) /\ (alpha = 0 -> l = r) /\ (alpha < 0 -> r < l).
Proof.
  intros Hw Hd. do 2 eexists.
  rewrite !skewnorm_pdf_closed_form by exact Hw.
  split; [reflexivity |]. split; [reflexivity |].
  rewrite !skew_normal_pdf_weight by exact Hw.
  rewrite !normal_pdf_phi by exact Hw.
  replace ((xi - d - xi) / omega) with (- (d / omega)) by (field; lra).
  replace ((xi + d - xi) / omega) with (d / omega) by (field; lra).
  rewrite phi_even.
  assert (Hn : 0 < Spec.phi (d / omega) / omega)
    by (apply Rdiv_lt_0_compat; [apply phi_pos | exact Hw]).
  set (n := Spec.phi (d / omega) / omega) in *.
  set (z := alpha * (xi + d - xi) / omega).
  replace (alpha * (xi - d - xi) / omega) with (- z)
    by (unfold z; field; lra).
  assert (Hz : z * omega = alpha * d) by (unfold z; field; lra).
  repeat split.
  - intros Ha. assert (0 < z) by nra.
    pose proof (Phi_increasing (- z) z ltac:(lra)). nra.
  - intros ->. assert (z = 0) by nra. replace z with 0.
    now rewrite Ropp_0.
  - intros Ha. assert (z < 0) by nra.
    pose proof (Phi_increasing z (- z) ltac:(lra)). nra.
Qed.

Lemma pdf_skew_direction_witness :
  exists l r,
    Skewnorm.pdf (0 - 1) 5 0 2 = Some l /\
    Skewnorm.pdf (0 + 1) 5 0 2 = Some r /\
    (0 < 5 -> l < r) /\ (5 = 0 -> l = r) /\ (5 < 0 -> r < l).
Proof.
  apply (pdf_skew_direction 5 0 2 1); lra.
Defined.

(** X4.  At the location the density is [1/(omega sqrt(2 pi))] whatever the
    shape.  For shape 0 this is the peak: the density is positive and
    strictly smaller at the point farther from [xi]. *)
Theorem pdf_at_location_and_normal_peak (xi omega : R) :
  0 < omega ->
  (forall alpha,
     Skewnorm.pdf xi alpha xi omega = Some (1 / (omega * sqrt (2 * PI)))) /\
  forall x y, exists u v,
    Skewnorm.pdf x 0 xi omega = Some u /\
    Skewnorm.pdf y 0 xi omega = Some v /\
    0 < u <= 1 / (omega * sqrt (2 * PI)) /\
    (Rabs (x - xi) < Rabs (y - xi) -> v < u).
Proof.
  intros Hw. pose proof sqrt_2PI_pos as Hs.
  assert (Hpeak : 0 < 1 / (omega * sqrt (2 * PI))).
  { apply Rdiv_lt_0_compat; [lra |]. now apply Rmult_lt_0_compat. }
  split.
  - intros alpha. rewrite skewnorm_pdf_closed_form by exact Hw. f_equal.
    unfold Spec.skew_normal_pdf.
    replace (alpha * (xi - xi) / omega) with 0 by (field; lra).
    replace ((xi - xi) / omega) with 0 by (field; lra).
    unfold Spec.Phi. rewrite ndtr_0. unfold Spec.phi.
    replace (- 0 ^ 2 / 2) with 0 by field. rewrite exp_0.
    field. split; lra.
  - intros x y. do 2 eexists.
    rewrite !skewnorm_pdf_normal by exact Hw.
    split; [reflexivity |]. split; [reflexivity |].
    unfold Spec.normal_pdf.
    set (c := 1 / (omega * sqrt (2 * PI))) in *.
    assert (Hden : 0 < 2 * omega ^ 2) by nra.
    repeat split.
    + apply Rmult_lt_0_compat; [exact Hpeak | apply exp_pos].
    + assert (Hle : exp (- (x - xi) ^ 2 / (2 * omega ^ 2)) <= 1).
      { rewrite <- exp_0.
        destruct (Req_dec (x - xi) 0) as [H0 | H0].
        - rewrite H0. right. f_equal. field. lra.
        - left. apply exp_increasing.
          assert (Hsq : 0 < (x - xi) ^ 2) by nra.
          assert (Hinv : 0 < / (2 * omega ^ 2))
            by now apply Rinv_0_lt_compat.
          unfold Rdiv. nra. }
      nra.
    + intros Hfar. apply Rsqr_lt_abs_1 in Hfar. unfold Rsqr in Hfar.
      apply Rmult_lt_compat_l; [exact Hpeak |].
      apply exp_increasing.
      unfold Rdiv. apply Rmult_lt_compat_r.
      * now apply Rinv_0_lt_compat.
      * nra.
Qed.

Lemma pdf_at_location_and_normal_peak_witness :
  (forall alpha,
     Skewnorm.pdf 3 alpha 3 2 = Some (1 / (2 * sqrt (2 * PI)))) /\
  forall x y, exists u v,
    Skewnorm.pdf x 0 3 2 = Some u /\
    Skewnorm.pdf y 0 3 2 = Some v /\
    0 < u <= 1 / (2 * sqrt (2 * PI)) /\
    (Rabs (x - 3) < Rabs (y - 3) -> v < u).
Proof.
  apply (pdf_at_location_and_normal_peak 3 2). lra.
Defined.

(** ** Mean, median and the extent of the curve *)

Lemma sum_bounds (a : list R) (lo hi : R) :
  (forall v, In v a -> lo <= v <= hi) ->
  lo * INR (length a) <= Numpy.sum a <= hi * INR (length a).
Proof.
  unfold Numpy.sum. induction a as [| w a IH]; intros Hall.
  - simpl. lra.
  - change (length (w :: a)) with (S (length a)). rewrite S_INR.
    simpl fold_right.
    assert (Hw : lo <= w <= hi) by (apply Hall; now left).
    assert (Ha : forall v, In v a -> lo <= v <= hi)
      by (intros v Hv; apply Hall; now right).
    specialize (IH Ha). lra.
Qed.

Lemma div_between (s n lo hi : R) :
  0 < n -> lo * n <= s <= hi * n -> lo <= s / n <= hi.
Proof.
  intros Hn [Hl Hh].
  assert (Hq : s / n * n = s) by (field; lra).
  split; apply (Rmult_le_reg_r n); lra.
Qed.

Lemma mean_bounds (a : list R) (lo hi : R) :
  a <> [] -> (forall v, In v a -> lo <= v <= hi) ->
  lo <= Numpy.mean a <= hi.
Proof.
  intros Hne Hall. pose proof (length_pos a Hne) as HN.
  unfold Numpy.mean. apply div_between; [exact HN |].
  now apply sum_bounds.
Qed.

Lemma slice_in (l : list R) (j k : nat) (v : R) :
  In v (firstn k (skipn j l)) -> In v l.
Proof.
  intros Hv. rewrite <- (firstn_skipn j l). apply in_or_app. right.
  rewrite <- (firstn_skipn k (skipn j l)). apply in_or_app. now left.
Qed.

Lemma sort_in (a : list R) (v : R) : In v (RSort.sort a) -> In v a.
Proof.
  apply Permutation_in, Permutation_sym, RSort.Permuted_sort.
Qed.

Lemma sort_length (a : list R) : length (RSort.sort a) = length a.
Proof. symmetry. apply Permutation_length, RSort.Permuted_sort. Qed.

Lemma slice_nonempty (l : list R) (j k : nat) :
  (j < length l)%nat -> (0 < k)%nat -> firstn k (skipn j l) <> [].
Proof.
  intros Hj Hk Hnil. apply (f_equal (@length R)) in Hnil.
  rewrite length_firstn, length_skipn in Hnil. simpl in Hnil. lia.
Qed.

Lemma median_bounds (a : list R) (lo hi : R) :
  a <> [] -> (forall v, In v a -> lo <= v <= hi) ->
  lo <= Numpy.median a <= hi.
Proof.
  intros Hne Hall. unfold Numpy.median.
  assert (Hlen : (0 < length (RSort.sort a))%nat).
  { rewrite sort_length. destruct a; [congruence | simpl; lia]. }
  assert (Hin : forall j k v,
             In v (firstn k (skipn j (RSort.sort a))) -> lo <= v <= hi).
  { intros j k v Hv. apply Hall, sort_in. eapply slice_in, Hv. }
  assert (Hhalf : (length (RSort.sort a) / 2 < length (RSort.sort a))%nat)
    by (apply Nat.div_lt; lia).
  destruct (Nat.odd (length (RSort.sort a))).
  - apply mean_bounds; [apply slice_nonempty; lia | apply Hin].
  - apply mean_bounds; [apply slice_nonempty; lia | apply Hin].
Qed.

Lemma linspace_in_range (lo hi x : R) (num : nat) :
  (2 <= num)%nat -> lo <= hi ->
  In x (Numpy.linspace lo hi num true) -> lo <= x <= hi.
Proof.
  intros Hnum Hle Hx.
  apply (In_nth _ _ 0) in Hx. destruct Hx as (i & Hi & <-).
  rewrite linspace_length in Hi. rewrite linspace_nth by lia.
  assert (Hdiv : 0 < INR (num - 1)) by (apply lt_0_INR; lia).
  assert (Hi0 : 0 <= INR i) by apply pos_INR.
  assert (Hi1 : INR i <= INR (num - 1)) by (apply le_INR; lia).
  assert (Hfrac : 0 <= INR i / INR (num - 1) <= 1)
    by (apply div_between; lra).
  replace (INR i * ((hi - lo) / INR (num - 1)))
    with (INR i / INR (num - 1) * (hi - lo)) by (field; lra).
  nra.
Qed.

(** X5.  The curve spans everything else that is drawn: for a non-empty
    sample, every sample value, the sample mean, the sample median and
    every x-value of the curve lie between [x_min] and [x_max]. *)
Theorem curve_spans_sample_and_markers
    (generated_data : list R) (loc scale : R) :
  generated_data <> [] ->
  exists lo hi xs,
    App.x_min generated_data loc scale = Some lo /\
    App.x_max generated_data loc scale = Some hi /\
    App.x_pdf generated_data loc scale = Some xs /\
    (forall v, In v generated_data -> lo <= v <= hi) /\
    lo <= App.sample_mean generated_data <= hi /\
    lo <= App.sample_median generated_data <= hi /\
    (forall x, In x xs -> lo <= x <= hi).
Proof.
  intros Hne.
  destruct (x_pdf_defined generated_data loc scale Hne)
    as (m & M & [_ Hmin] & [_ Hmax] & Hlo & Hhi & Hx).
  pose proof (Rmin_l m (loc - 4 * scale)) as Hl.
  pose proof (Rmax_l M (loc + 4 * scale)) as Hr.
  assert (Hall : forall v, In v generated_data ->
            Rmin m (loc - 4 * scale) <= v <= Rmax M (loc + 4 * scale)).
  { intros v Hv. specialize (Hmin v Hv). specialize (Hmax v Hv). lra. }
  do 3 eexists.
  split; [exact Hlo |]. split; [exact Hhi |]. split; [exact Hx |].
  split; [exact Hall |].
  split; [now apply mean_bounds |].
  split; [now apply median_bounds |].
  intros x Hin. apply (linspace_in_range _ _ x 500); [lia | | exact Hin].
  destruct generated_data as [| v rest]; [congruence |].
  specialize (Hall v (or_introl eq_refl)). lra.
Qed.

Lemma curve_spans_sample_and_markers_witness :
  exists lo hi xs,
    App.x_min [2; -1; 7] 0 1 = Some lo /\
    App.x_max [2; -1; 7] 0 1 = Some hi /\
    App.x_pdf [2; -1; 7] 0 1 = Some xs /\
    (forall v, In v [2; -1; 7] -> lo <= v <= hi) /\
    lo <= App.sample_mean [2; -1; 7] <= hi /\
    lo <= App.sample_median [2; -1; 7] <= hi /\
    (forall x, In x xs -> lo <= x <= hi).
Proof.
  apply (curve_spans_sample_and_markers [2; -1; 7] 0 1). discriminate.
Defined.

(** ** The median *)

Lemma leb_Rle (x y : R) : ROrder.leb x y = true <-> x <= y.
Proof.
  unfold ROrder.leb.
  destruct (Rle_dec x y); split; intros; auto; try lra; discriminate.
Qed.

Lemma sort_sorted (a : list R) : StronglySorted Rle (RSort.sort a).
Proof.
  assert (Htrans : Relations_1.Transitive (fun x y => ROrder.leb x y = true)).
  { intros x y z Hxy Hyz. apply leb_Rle in Hxy, Hyz. apply leb_Rle. lra. }
  pose proof (Sorted_StronglySorted Htrans (RSort.Sorted_sort a)) as Hs.
  induction Hs as [| x l _ IH Hall]; constructor.
  - exact IH.
  - eapply Forall_impl; [| exact Hall]. intros y Hy. now apply leb_Rle.
Qed.

Lemma sorted_unique (l1 l2 : list R) :
  StronglySorted Rle l1 -> StronglySorted Rle l2 -> Permutation l1 l2 ->
  l1 = l2.
Proof.
  revert l2. induction l1 as [| x l1 IH]; intros l2 H1 H2 Hp.
  - apply Permutation_nil in Hp. now subst.
  - destruct l2 as [| y l2].
    + apply Permutation_sym, Permutation_nil in Hp. discriminate.
    + apply StronglySorted_inv in H1. destruct H1 as [H1 Hx].
      apply StronglySorted_inv in H2. destruct H2 as [H2 Hy].
      rewrite Forall_forall in Hx, Hy.
      assert (Hxy : x = y).
      { assert (Hin1 : In x (y :: l2))
          by (eapply Permutation_in; [exact Hp | now left]).
        assert (Hin2 : In y (x :: l1))
          by (eapply Permutation_in;
              [apply Permutation_sym; exact Hp | now left]).
        destruct Hin1 as [-> | Hin1]; [reflexivity |].
        destruct Hin2 as [-> | Hin2]; [reflexivity |].
        specialize (Hx y Hin2). specialize (Hy x Hin1). lra. }
      subst y. f_equal. apply IH; try assumption.
      eapply Permutation_cons_inv, Hp.
Qed.

Lemma sort_permutation (a b : list R) :
  Permutation a b -> RSort.sort a = RSort.sort b.
Proof.
  intros Hp. apply sorted_unique; try apply sort_sorted.
  eapply Permutation_trans;
    [apply Permutation_sym, RSort.Permuted_sort |].
  eapply Permutation_trans; [exact Hp | apply RSort.Permuted_sort].
Qed.

Lemma filter_length_permutation (f : R -> bool) (a b : list R) :
  Permutation a b -> length (filter f a) = length (filter f b).
Proof.
  induction 1 as [| x l l' _ IH | x y l | l l' l'' _ IH1 _ IH2]; simpl.
  - reflexivity.
  - destruct (f x); simpl; now rewrite IH.
  - destruct (f x), (f y); reflexivity.
  - now rewrite IH1.
Qed.

Lemma sorted_split (l1 l2 : list R) (x : R) :
  StronglySorted Rle (l1 ++ x :: l2) ->
  Forall (fun v => v <= x) l1 /\ Forall (fun v => x <= v) l2.
Proof.
  induction l1 as [| w l1 IH]; simpl; intros Hs.
  - apply StronglySorted_inv in Hs. destruct Hs as [_ Hx]. now split.
  - apply StronglySorted_inv in Hs. destruct Hs as [Hs Hw].
    destruct (IH Hs) as [H1 H2]. split; [| exact H2].
    constructor; [| exact H1].
    rewrite Forall_forall in Hw. apply Hw, in_or_app. right. now left.
Qed.

Lemma filter_all (f : R -> bool) (l : list R) :
  Forall (fun v => f v = true) l -> length (filter f l) = length l.
Proof.
  induction 1 as [| x l Hx _ IH]; simpl; [reflexivity |].
  rewrite Hx. simpl. now rewrite IH.
Qed.

Lemma count_le_prefix (m : R) (l1 l2 : list R) :
  Forall (fun v => v <= m) l1 ->
  (length l1 <= Spec.count_le m (l1 ++ l2))%nat.
Proof.
  intros Hall. unfold Spec.count_le.
  rewrite filter_app, length_app, filter_all; [lia |].
  eapply Forall_impl; [| exact Hall]. intros v Hv. now apply leb_Rle.
Qed.

Lemma count_ge_suffix (m : R) (l1 l2 : list R) :
  Forall (fun v => m <= v) l2 ->
  (length l2 <= Spec.count_ge m (l1 ++ l2))%nat.
Proof.
  intros Hall. unfold Spec.count_ge.
  rewrite filter_app, length_app, (filter_all _ l2); [lia |].
  eapply Forall_impl; [| exact Hall]. intros v Hv. now apply leb_Rle.
Qed.

Lemma mean_singleton (x : R) : Numpy.mean [x] = x.
Proof. unfold Numpy.mean, Numpy.sum. simpl. field. Qed.

Lemma mean_pair (x y : R) : Numpy.mean [x; y] = (x + y) / 2.
Proof. unfold Numpy.mean, Numpy.sum. simpl. field. Qed.

Lemma odd_half (n : nat) : Nat.odd n = true -> n = (2 * (n / 2) + 1)%nat.
Proof.
  intros Ho. apply Nat.odd_spec in Ho. destruct Ho as [m ->].
  replace ((2 * m + 1) / 2)%nat with m; [reflexivity |].
  apply Nat.div_unique with 1%nat; lia.
Qed.

Lemma even_half (n : nat) : Nat.odd n = false -> n = (2 * (n / 2))%nat.
Proof.
  intros Ho. rewrite <- Nat.negb_even in Ho.
  apply Bool.negb_false_iff, Nat.even_spec in Ho. destruct Ho as [m ->].
  replace (2 * m / 2)%nat with m; [reflexivity |].
  apply Nat.div_unique with 0%nat; lia.
Qed.

(** The median is the middle element of the sorted sample when the size
    is odd. *)
Lemma median_odd (a : list R) :
  Nat.odd (length a) = true ->
  exists l1 x l2,
    RSort.sort a = l1 ++ x :: l2 /\ length l1 = (length a / 2)%nat /\
    length l2 = (length a / 2)%nat /\ Numpy.median a = x.
Proof.
  intros Ho. pose proof (odd_half _ Ho) as Hn.
  unfold Numpy.median. rewrite sort_length, Ho.
  set (s := RSort.sort a). set (k := (length a / 2)%nat) in *.
  assert (Hs : length s = length a) by apply sort_length.
  pose proof (firstn_skipn k s) as Hsplit.
  pose proof (length_skipn k s) as Hlen.
  destruct (skipn k s) as [| x l2]; simpl in Hlen; [lia |].
  exists (firstn k s), x, l2. repeat split.
  - now rewrite Hsplit.
  - rewrite length_firstn. lia.
  - lia.
  - simpl. apply mean_singleton.
Qed.

(** For an even size it is the average of the two middle elements. *)
Lemma median_even (a : list R) :
  a <> [] -> Nat.odd (length a) = false ->
  exists l1 x y l2,
    RSort.sort a = l1 ++ x :: y :: l2 /\
    S (length l1) = (length a / 2)%nat /\
    S (length l2) = (length a / 2)%nat /\ Numpy.median a = (x + y) / 2.
Proof.
  intros Hne Ho. pose proof (even_half _ Ho) as Hn.
  assert (Hpos : (0 < length a)%nat)
    by (destruct a; [congruence | simpl; lia]).
  unfold Numpy.median. rewrite sort_length, Ho.
  set (s := RSort.sort a). set (k := (length a / 2)%nat) in *.
  assert (Hs : length s = length a) by apply sort_length.
  pose proof (firstn_skipn (k - 1) s) as Hsplit.
  pose proof (length_skipn (k - 1) s) as Hlen.
  destruct (skipn (k - 1) s) as [| x [| y l2]]; simpl in Hlen; try lia.
  exists (firstn (k - 1) s), x, y, l2. repeat split.
  - now rewrite Hsplit.
  - rewrite length_firstn. lia.
  - lia.
  - simpl. apply mean_pair.
Qed.

(** X6.  The median does not depend on the order of the sample, and it
    splits a non-empty sample in halves: at least half of the values are
    at most the median and at least half are at least the median. *)
Theorem sample_median_splits_sample (generated_data : list R) :
  (forall reordered, Permutation generated_data reordered ->
     App.sample_median reordered = App.sample_median generated_data) /\
  (generated_data <> [] ->
   (length generated_data
    <= 2 * Spec.count_le (App.sample_median generated_data) generated_data)%nat
   /\
   (length generated_data
    <= 2 * Spec.count_ge (App.sample_median generated_data) generated_data)%nat).
Proof.
  split.
  - intros b Hp. unfold App.sample_median, Numpy.median.
    now rewrite (sort_permutation _ _ Hp).
  - intros Hne. unfold App.sample_median.
    set (m := Numpy.median generated_data).
    assert (Hle : Spec.count_le m generated_data
                  = Spec.count_le m (RSort.sort generated_data))
      by apply filter_length_permutation, RSort.Permuted_sort.
    assert (Hge : Spec.count_ge m generated_data
                  = Spec.count_ge m (RSort.sort generated_data))
      by apply filter_length_permutation, RSort.Permuted_sort.
    rewrite Hle, Hge.
    pose proof (sort_sorted generated_data) as Hsorted.
    destruct (Nat.odd (length generated_data)) eqn:Ho.
    + pose proof (odd_half _ Ho) as Hn.
      destruct (median_odd generated_data Ho)
        as (l1 & x & l2 & Hs & H1 & H2 & Hm).
      fold m in Hm. rewrite Hs in *. subst m. rewrite Hm.
      destruct (sorted_split _ _ _ Hsorted) as [Hlow Hhigh].
      split.
      * assert (Hpre : Forall (fun v => v <= x) (l1 ++ [x])).
        { apply Forall_app. split; [exact Hlow |].
          constructor; [lra | constructor]. }
        pose proof (count_le_prefix x (l1 ++ [x]) l2 Hpre) as Hc.
        rewrite <- app_assoc in Hc. simpl in Hc.
        rewrite length_app in Hc. simpl in Hc. lia.
      * assert (Hsuf : Forall (fun v => x <= v) (x :: l2))
          by (constructor; [lra | exact Hhigh]).
        pose proof (count_ge_suffix x l1 (x :: l2) Hsuf) as Hc.
        simpl in Hc. lia.
    + pose proof (even_half _ Ho) as Hn.
      destruct (median_even generated_data Hne Ho)
        as (l1 & x & y & l2 & Hs & H1 & H2 & Hm).
      fold m in Hm. rewrite Hs in *. subst m. rewrite Hm.
      destruct (sorted_split _ _ _ Hsorted) as [Hlow Hxy].
      apply Forall_inv in Hxy.
      assert (Hsorted' : StronglySorted Rle ((l1 ++ [x]) ++ y :: l2))
        by (rewrite <- app_assoc; exact Hsorted).
      destruct (sorted_split _ _ _ Hsorted') as [_ Hhigh].
      split.
      * assert (Hpre : Forall (fun v => v <= (x + y) / 2) (l1 ++ [x])).
        { apply Forall_app. split.
          - eapply Forall_impl; [| exact Hlow]. simpl. intros v Hv. lra.
          - constructor; [lra | constructor]. }
        pose proof (count_le_prefix _ (l1 ++ [x]) (y :: l2) Hpre) as Hc.
        rewrite <- app_assoc in Hc. simpl in Hc.
        rewrite length_app in Hc. simpl in Hc. lia.
      * assert (Hsuf : Forall (fun v => (x + y) / 2 <= v) (y :: l2)).
        { constructor; [lra |].
          eapply Forall_impl; [| exact Hhigh]. simpl. intros v Hv. lra. }
        pose proof (count_ge_suffix _ (l1 ++ [x]) (y :: l2) Hsuf) as Hc.
        rewrite <- app_assoc in Hc. simpl in Hc. simpl in Hc. lia.
Qed.

Lemma sample_median_splits_sample_witness :
  let sample := [2; -1; 7] in
  (length sample <= 2 * Spec.count_le (App.sample_median sample) sample)%nat
  /\
  (length sample <= 2 * Spec.count_ge (App.sample_median sample) sample)%nat.
Proof.
  intros sample.
  apply (proj2 (sample_median_splits_sample sample)). discriminate.
Defined.

(** ** Spread *)

Lemma central_moment_2_nonneg (a : list R) :
  a <> [] -> 0 <= Spec.central_moment 2 a.
Proof.
  intros Hne. pose proof (length_pos a Hne) as HN.
  unfold Spec.central_moment.
  apply Rmult_le_pos; [| left; now apply Rinv_0_lt_compat].
  apply total_nonneg. intros v. apply pow2_ge_0.
Qed.








(** ** Change of location and scale *)

Lemma total_map (g f : R -> R) (a : list R) :
  Spec.total g (map f a) = Spec.total (fun v => g (f v)) a.
Proof.
  induction a as [| w a IH]; simpl; [reflexivity | now rewrite IH].
Qed.

Lemma total_scal (c : R) (g : R -> R) (a : list R) :
  Spec.total (fun v => c * g v) a = c * Spec.total g a.
Proof.
  induction a as [| w a IH]; simpl; [ring | rewrite IH; ring].
Qed.

Lemma total_affine (c b : R) (a : list R) :
  Spec.total (fun v => c * v + b) a =
  c * Spec.total (fun v => v) a + b * INR (length a).
Proof.
  induction a as [| w a IH].
  - simpl. ring.
  - change (length (w :: a)) with (S (length a)). rewrite S_INR.
    cbn [Spec.total]. rewrite IH. ring.
Qed.

Lemma average_affine (c b : R) (a : list R) :
  a <> [] ->
  Spec.average (map (fun v => c * v + b) a) = c * Spec.average a + b.
Proof.
  intros Hne. pose proof (length_pos a Hne) as HN.
  unfold Spec.average.
  rewrite (total_map (fun v => v)), length_map, total_affine.
  field. lra.
Qed.

Lemma central_moment_affine (k : nat) (c b : R) (a : list R) :
  a <> [] ->
  Spec.central_moment k (map (fun v => c * v + b) a) =
  c ^ k * Spec.central_moment k a.
Proof.
  intros Hne. pose proof (length_pos a Hne) as HN.
  unfold Spec.central_moment.
  rewrite average_affine by exact Hne.
  rewrite total_map, length_map.
  rewrite (total_ext _ (fun v => c ^ k * (v - Spec.average a) ^ k)).
  - rewrite total_scal. field. lra.
  - intros v. rewrite <- Rpow_mult_distr. f_equal. ring.
Qed.

Lemma sorted_map_increasing (f : R -> R) (l : list R) :
  (forall u v, u <= v -> f u <= f v) ->
  StronglySorted Rle l -> StronglySorted Rle (map f l).
Proof.
  intros Hf. induction 1 as [| x l _ IH Hall]; simpl; constructor.
  - exact IH.
  - apply Forall_map. eapply Forall_impl; [| exact Hall].
    intros v Hv. now apply Hf.
Qed.

Lemma sort_map_increasing (f : R -> R) (a : list R) :
  (forall u v, u <= v -> f u <= f v) ->
  RSort.sort (map f a) = map f (RSort.sort a).
Proof.
  intros Hf. apply sorted_unique.
  - apply sort_sorted.
  - apply sorted_map_increasing; [exact Hf | apply sort_sorted].
  - eapply Permutation_trans;
      [apply Permutation_sym, RSort.Permuted_sort |].
    apply Permutation_map, RSort.Permuted_sort.
Qed.

Lemma median_affine (c b : R) (a : list R) :
  a <> [] -> 0 < c ->
  Numpy.median (map (fun v => c * v + b) a) = c * Numpy.median a + b.
Proof.
  intros Hne Hc.
  assert (Hpos : (0 < length (RSort.sort a))%nat).
  { rewrite sort_length. destruct a; [congruence | simpl; lia]. }
  assert (Hhalf : (length (RSort.sort a) / 2 < length (RSort.sort a))%nat)
    by (apply Nat.div_lt; lia).
  unfold Numpy.median.
  rewrite sort_map_increasing by (intros u v Huv; nra).
  rewrite length_map, !skipn_map, !firstn_map.
  assert (Hmean : forall l, l <> [] ->
            Numpy.mean (map (fun v => c * v + b) l) = c * Numpy.mean l + b).
  { intros l Hl. rewrite !mean_average. now apply average_affine. }
  destruct (Nat.odd (length (RSort.sort a)));
    apply Hmean, slice_nonempty; lia.
Qed.

Lemma g1_affine (a : list R) (c b : R) :
  a <> [] -> 0 < c -> 0 < Spec.central_moment 2 a ->
  Spec.g1 (map (fun v => c * v + b) a) = Spec.g1 a.
Proof.
  intros Hne Hc Hpos. unfold Spec.g1.
  rewrite !central_moment_affine by exact Hne.
  assert (Hpos' : 0 < c ^ 2 * Spec.central_moment 2 a)
    by (apply Rmult_lt_0_compat; [nra | exact Hpos]).
  change (Rpower ?x (3 / 2)) with (Stats.pow_1_5 x).
  rewrite !pow_1_5_sqrt by assumption.
  rewrite sqrt_mult by (try apply pow2_ge_0; lra).
  rewrite sqrt_pow2 by lra.
  assert (Hs : 0 < sqrt (Spec.central_moment 2 a)) by now apply sqrt_lt_R0.
  field. repeat split; lra.
Qed.

(** X8.  Moving and stretching every sample value by [v -> c v + b] with
    [c > 0] moves and stretches the mean and the median the same way and
    multiplies the standard deviation by [c].  Stretching alone ([b = 0])
    leaves the skewness as it is; moving leaves it as it is unless it
    makes it [nan] or a number again, because the test for lost spread
    compares the spread with the mean. *)
Theorem statistics_under_location_scale
    (generated_data : list R) (c b : R) :
  generated_data <> [] -> 0 < c ->
  let moved := map (fun v => c * v + b) generated_data in
  App.sample_mean moved = c * App.sample_mean generated_data + b /\
  App.sample_median moved = c * App.sample_median generated_data + b /\
  App.sample_std_dev moved = c * App.sample_std_dev generated_data /\
  (b = 0 -> App.sample_skewness moved = App.sample_skewness generated_data)
  /\
  (forall g g',
     App.sample_skewness generated_data = Some g ->
     App.sample_skewness moved = Some g' -> g' = g).
Proof.
  intros Hne Hc moved.
  pose proof (central_moment_2_nonneg generated_data Hne) as Hm2.
  pose proof (central_moment_affine 2 c b generated_data Hne) as H2.
  pose proof (average_affine c b generated_data Hne) as Havg.
  pose proof (g1_affine generated_data c b Hne Hc) as Hg.
  fold moved in H2, Havg, Hg.
  pose proof (pow2_ge_0 (Stats.resolution * Spec.average generated_data))
    as Hguard.
  split; [| split; [| split; [| split]]].
  - unfold App.sample_mean. rewrite !mean_average. exact Havg.
  - now apply median_affine.
  - unfold App.sample_std_dev, Numpy.std. rewrite !var_central_moment, H2.
    rewrite sqrt_mult by (try apply pow2_ge_0; exact Hm2).
    rewrite sqrt_pow2 by lra. reflexivity.
  - intros ->. unfold App.sample_skewness. rewrite !skew_biased.
    rewrite H2, Havg.
    replace ((Stats.resolution * (c * Spec.average generated_data + 0)) ^ 2)
      with (c ^ 2 * (Stats.resolution * Spec.average generated_data) ^ 2)
      by ring.
    assert (Hcc : 0 < c ^ 2) by nra.
    destruct (Rle_dec _ _) as [H1 | H1], (Rle_dec _ _) as [H0 | H0];
      try reflexivity.
    + exfalso. apply H0. apply (Rmult_le_reg_l (c ^ 2)); assumption.
    + exfalso. apply H1. apply Rmult_le_compat_l; lra.
    + f_equal. apply Hg. lra.
  - intros g g'. unfold App.sample_skewness. rewrite !skew_biased.
    destruct (Rle_dec _ _) as [H0 | H0]; [discriminate |].
    destruct (Rle_dec _ _) as [H1 | H1]; [discriminate |].
    intros [= <-] [= <-]. apply Hg. lra.
Qed.

Lemma statistics_under_location_scale_witness :
  let moved := map (fun v => 2 * v + 5) [0; 0; 3] in
  App.sample_mean moved = 2 * App.sample_mean [0; 0; 3] + 5 /\
  App.sample_median moved = 2 * App.sample_median [0; 0; 3] + 5 /\
  App.sample_std_dev moved = 2 * App.sample_std_dev [0; 0; 3] /\
  (5 = 0 -> App.sample_skewness moved = App.sample_skewness [0; 0; 3]) /\
  (forall g g',
     App.sample_skewness [0; 0; 3] = Some g ->
     App.sample_skewness moved = Some g' -> g' = g).
Proof.
  apply (statistics_under_location_scale [0; 0; 3] 2 5).
  - discriminate.
  - lra.
Defined.

(** ** Mirroring the sample *)

Lemma sorted_snoc (l : list R) (y : R) :
  StronglySorted Rle l -> Forall (fun v => v <= y) l ->
  StronglySorted Rle (l ++ [y]).
Proof.
  induction 1 as [| x l _ IH Hall]; intros Hy; simpl.
  - constructor; constructor.
  - apply Forall_cons_iff in Hy. destruct Hy as [Hxy Hy].
    constructor; [now apply IH |].
    apply Forall_app. split; [exact Hall |]. constructor; [exact Hxy |].
    constructor.
Qed.

Lemma sorted_rev_opp (l : list R) :
  StronglySorted Rle l -> StronglySorted Rle (rev (map Ropp l)).
Proof.
  induction 1 as [| x l _ IH Hall]; simpl; [constructor |].
  apply sorted_snoc; [exact IH |].
  apply Forall_rev, Forall_map.
  eapply Forall_impl; [| exact Hall]. intros v Hv. simpl. lra.
Qed.

Lemma sort_map_opp (a : list R) :
  RSort.sort (map Ropp a) = rev (map Ropp (RSort.sort a)).
Proof.
  apply sorted_unique.
  - apply sort_sorted.
  - apply sorted_rev_opp, sort_sorted.
  - eapply Permutation_trans;
      [apply Permutation_sym, RSort.Permuted_sort |].
    eapply Permutation_trans; [| apply Permutation_rev].
    apply Permutation_map, RSort.Permuted_sort.
Qed.

Lemma app_same_length (l1 l1' r r' : list R) :
  length l1 = length l1' -> l1 ++ r = l1' ++ r' -> r = r'.
Proof.
  revert l1'. induction l1 as [| x l1 IH]; intros [| x' l1'] Hlen Heq;
    simpl in *; try discriminate.
  - exact Heq.
  - injection Heq as _ Heq. apply (IH l1'); [lia | exact Heq].
Qed.

Lemma median_opp (a : list R) :
  a <> [] -> Numpy.median (map Ropp a) = - Numpy.median a.
Proof.
  intros Hne.
  assert (Hne' : map Ropp a <> []) by (destruct a; [congruence | discriminate]).
  destruct (Nat.odd (length a)) eqn:Ho.
  - destruct (median_odd a Ho) as (l1 & x & l2 & Hs & H1 & H2 & ->).
    assert (Ho' : Nat.odd (length (map Ropp a)) = true)
      by now rewrite length_map.
    destruct (median_odd _ Ho') as (l1' & x' & l2' & Hs' & H1' & _ & ->).
    rewrite length_map in H1'.
    rewrite sort_map_opp, Hs, map_app, rev_app_distr in Hs'.
    simpl in Hs'. rewrite <- app_assoc in Hs'. simpl in Hs'.
    apply app_same_length in Hs'.
    + now injection Hs'.
    + rewrite length_rev, length_map. lia.
  - destruct (median_even a Hne Ho)
      as (l1 & x & y & l2 & Hs & H1 & H2 & ->).
    assert (Ho' : Nat.odd (length (map Ropp a)) = false)
      by now rewrite length_map.
    destruct (median_even _ Hne' Ho')
      as (l1' & x' & y' & l2' & Hs' & H1' & _ & ->).
    rewrite length_map in H1'.
    rewrite sort_map_opp, Hs, map_app, rev_app_distr in Hs'.
    simpl in Hs'. rewrite <- !app_assoc in Hs'. simpl in Hs'.
    apply app_same_length in Hs'.
    + injection Hs' as <- <- _. field.
    + rewrite length_rev, length_map. lia.
Qed.

(** X9.  Mirroring every sample value ([v -> - v]) changes the sign of the
    mean, of the median and of the skewness and leaves the standard
    deviation as it is. *)
Theorem statistics_under_reflection (generated_data : list R) :
  generated_data <> [] ->
  let mirrored := map Ropp generated_data in
  App.sample_mean mirrored = - App.sample_mean generated_data /\
  App.sample_median mirrored = - App.sample_median generated_data /\
  App.sample_std_dev mirrored = App.sample_std_dev generated_data /\
  App.sample_skewness mirrored =
  option_map Ropp (App.sample_skewness generated_data).
Proof.
  intros Hne mirrored.
  assert (Hmap : mirrored = map (fun v => -1 * v + 0) generated_data).
  { unfold mirrored. apply map_ext. intros v. ring. }
  pose proof (central_moment_affine 2 (-1) 0 generated_data Hne) as H2.
  pose proof (central_moment_affine 3 (-1) 0 generated_data Hne) as H3.
  rewrite <- Hmap in H2, H3.
  replace ((-1) ^ 2) with 1 in H2 by ring. rewrite Rmult_1_l in H2.
  split; [| split; [| split]].
  - unfold App.sample_mean. rewrite !mean_average, Hmap.
    rewrite average_affine by exact Hne. ring.
  - now apply median_opp.
  - unfold App.sample_std_dev, Numpy.std.
    now rewrite !var_central_moment, H2.
  - assert (Havg : Spec.average mirrored = - Spec.average generated_data).
    { rewrite Hmap, average_affine by exact Hne. ring. }
    unfold App.sample_skewness. rewrite !skew_biased, H2, Havg.
    replace ((Stats.resolution * - Spec.average generated_data) ^ 2)
      with ((Stats.resolution * Spec.average generated_data) ^ 2) by ring.
    destruct (Rle_dec _ _) as [Hz | Hz]; [reflexivity |].
    simpl. f_equal. unfold Spec.g1. rewrite H2, H3.
    unfold Rdiv. ring.
Qed.

Lemma statistics_under_reflection_witness :
  let mirrored := map Ropp [0; 0; 3] in
  App.sample_mean mirrored = - App.sample_mean [0; 0; 3] /\
  App.sample_median mirrored = - App.sample_median [0; 0; 3] /\
  App.sample_std_dev mirrored = App.sample_std_dev [0; 0; 3] /\
  App.sample_skewness mirrored =
  option_map Ropp (App.sample_skewness [0; 0; 3]).
Proof.
  apply (statistics_under_reflection [0; 0; 3]). discriminate.
Defined.

(** ** What the sliders can deliver *)

Section Grid.

Local Open Scope Q_scope.
Import Streamlit.

Lemma slider_reaches (s : FloatSlider) (lo t : Z) :
  min_value s == lo # 10 -> step s == 1 # 10 ->
  (lo <= t <= lo + last_tick s)%Z ->
  slider s (Some (Z.to_nat (t - lo))) == t # 10.
Proof.
  intros Hmin Hstep Ht. simpl. rewrite Hmin, Hstep.
  rewrite Z2Nat.id by lia. rewrite Z.min_l by lia.
  unfold Qeq, Qplus, Qmult, inject_Z. simpl. lia.
Qed.

(** X10.  Every tick of every slider can be set, both ends of each range
    included: any multiple of 100 from 100 to 10000 for [N], any tenth from
    -10.0 to 10.0 for [alpha] and for [xi], any tenth from 0.1 to 10.0 for
    [omega], in any combination. *)
Theorem sidebar_reaches_every_tick (j ta tl ts : Z) :
  (1 <= j <= 100)%Z -> (-100 <= ta <= 100)%Z ->
  (-100 <= tl <= 100)%Z -> (1 <= ts <= 100)%Z ->
  exists ui,
    App.n_samples (App.read_sidebar ui) = (100 * j)%Z /\
    App.skew_param (App.read_sidebar ui) == ta # 10 /\
    App.loc_param (App.read_sidebar ui) == tl # 10 /\
    App.scale_param (App.read_sidebar ui) == ts # 10.
Proof.
  intros Hj Hta Htl Hts.
  exists {| App.n_samples_state := Some (Z.to_nat (j - 1));
            App.skew_param_state := Some (Z.to_nat (ta - -100));
            App.loc_param_state := Some (Z.to_nat (tl - -100));
            App.scale_param_state := Some (Z.to_nat (ts - 1)) |}.
  unfold App.read_sidebar.
  cbn [App.n_samples App.skew_param App.loc_param App.scale_param
       App.n_samples_state App.skew_param_state App.loc_param_state
       App.scale_param_state].
  split; [| split; [| split]].
  - cbn [int_slider]. change (ilast_tick App.n_samples_slider) with 99%Z.
    change (imin_value App.n_samples_slider) with 100%Z.
    change (istep App.n_samples_slider) with 100%Z.
    rewrite Z2Nat.id by lia. rewrite Z.min_l by lia. lia.
  - apply slider_reaches; try reflexivity.
    change (last_tick App.skew_param_slider) with 200%Z. lia.
  - apply slider_reaches; try reflexivity.
    change (last_tick App.loc_param_slider) with 200%Z. lia.
  - apply slider_reaches; try reflexivity.
    change (last_tick App.scale_param_slider) with 99%Z. lia.
Qed.

End Grid.

Lemma sidebar_reaches_every_tick_witness :
  exists ui,
    App.n_samples (App.read_sidebar ui) = (100 * 100)%Z /\
    (App.skew_param (App.read_sidebar ui) == -100 # 10)%Q /\
    (App.loc_param (App.read_sidebar ui) == 100 # 10)%Q /\
    (App.scale_param (App.read_sidebar ui) == 1 # 10)%Q.
Proof.
  apply (sidebar_reaches_every_tick 100 (-100) 100 1)%Z; lia.
Defined.

(** ** Rounding in the title *)

Section Rounding.

Local Open Scope Q_scope.




End Rounding.


(** ** A whole run *)




(** X14.  The curve is undefined only for an empty sample (where the
    minimum of the sample raises).  For a non-empty sample it always has
    500 density values; they are all numbers when the scale is positive and
    all [nan] when it is not. *)
Theorem curve_defined_unless_sample_empty
    (generated_data : list R) (a loc scale : R) :
  (App.x_pdf generated_data loc scale = None <-> generated_data = []) /\
  (App.pdf_values generated_data a loc scale = None <->
   generated_data = []) /\
  forall ys,
    App.pdf_values generated_data a loc scale = Some ys ->
    length ys = 500%nat /\
    (0 < scale -> forall y, In y ys -> y <> None) /\
    (scale <= 0 -> forall y, In y ys -> y = None).
Proof.
  destruct generated_data as [| v rest].
  - repeat split; try reflexivity; discriminate.
  - assert (Hne : v :: rest <> []) by discriminate.
    destruct (x_pdf_defined (v :: rest) loc scale Hne)
      as (lo & hi & _ & _ & _ & _ & Hx).
    unfold App.pdf_values. rewrite Hx. simpl option_map.
    split; [split; discriminate |]. split; [split; discriminate |].
    intros ys Hys. injection Hys as <-.
    split; [now rewrite length_map, linspace_length |].
    split.
    + intros Hpos y Hy. apply in_map_iff in Hy. destruct Hy as (x & <- & _).
      rewrite skewnorm_pdf_closed_form by exact Hpos. discriminate.
    + intros Hneg y Hy. apply in_map_iff in Hy. destruct Hy as (x & <- & _).
      unfold Skewnorm.pdf. destruct (Rlt_dec 0 scale); [lra | reflexivity].
Qed.

Lemma curve_defined_unless_sample_empty_witness :
  exists ys,
    App.pdf_values [2; -1; 7] 0 0 1 = Some ys /\
    length ys = 500%nat /\ forall y, In y ys -> y <> None.
Proof.
  eexists. split; [reflexivity |].
  destruct (proj2 (proj2 (curve_defined_unless_sample_empty
                            [2; -1; 7] 0 0 1)) _ eq_refl)
    as (Hlen & Hpos & _).
  split; [exact Hlen | apply Hpos; lra].
Defined.

(** X15.  The window of four scales on either side of the location cuts
    the curve where it is negligible: for every shape, the densities at
    [xi - 4 omega] and [xi + 4 omega] add up to [2 exp(-8)] times the
    height [1/(omega sqrt(2 pi))] of the curve at [xi]. *)
Theorem density_at_window_edges (alpha xi omega : R) :
  0 < omega ->
  exists l r,
    Skewnorm.pdf (xi - 4 * omega) alpha xi omega = Some l /\
    Skewnorm.pdf (xi + 4 * omega) alpha xi omega = Some r /\
    l + r = 2 * exp (- 8) * (1 / (omega * sqrt (2 * PI))).
Proof.
  intros Hw. pose proof sqrt_2PI_pos as Hs. do 2 eexists.
  rewrite !skewnorm_pdf_closed_form by exact Hw.
  split; [reflexivity |]. split; [reflexivity |].
  rewrite !skew_normal_pdf_weight by exact Hw.
  replace (alpha * (xi - 4 * omega - xi) / omega) with (- (4 * alpha))
    by (field; lra).
  replace (alpha * (xi + 4 * omega - xi) / omega) with (4 * alpha)
    by (field; lra).
  rewrite Phi_reflection.
  assert (Hedge : forall x, (x - xi) ^ 2 = 16 * omega ^ 2 ->
            Spec.normal_pdf xi omega x
            = exp (- 8) * (1 / (omega * sqrt (2 * PI)))).
  { intros x Hx. unfold Spec.normal_pdf. rewrite Hx.
    replace (- (16 * omega ^ 2) / (2 * omega ^ 2)) with (- 8)
      by (field; lra).
    ring. }
  rewrite !Hedge by ring. ring.
Qed.

Lemma density_at_window_edges_witness :
  exists l r,
    Skewnorm.pdf (1 - 4 * 2) 3 1 2 = Some l /\
    Skewnorm.pdf (1 + 4 * 2) 3 1 2 = Some r /\
    l + r = 2 * exp (- 8) * (1 / (2 * sqrt (2 * PI))).
Proof.
  apply (density_at_window_edges 3 1 2). lra.
Defined.

(** ** The Gaussian integral *)

(** ** Integrals of continuous functions *)

Lemma continuous_integrable (f : R -> R) (a b : R) :
  continuity f -> Riemann_integrable f a b.
Proof.
  intros Hc. destruct (Rle_dec a b) as [Hab | Hab].
  - apply continuity_implies_RiemannInt; [exact Hab |].
    intros t _. apply Hc.
  - apply RiemannInt_P1.
    apply continuity_implies_RiemannInt; [lra |].
    intros t _. apply Hc.
Qed.

Lemma integral_derivative (f : R -> R)
    (pr : forall a b, Riemann_integrable f a b) (a x : R) :
  continuity f ->
  derivable_pt_lim (fun y => RiemannInt (pr a y)) x (f x).
Proof.
  intros Hc.
  assert (Hab : x - 1 <= x + 1) by lra.
  assert (C0 : forall t, x - 1 <= t <= x + 1 -> continuity_pt f t)
    by (intros t _; apply Hc).
  assert (Hx : x - 1 < x < x + 1) by lra.
  pose proof (@RiemannInt_P27 f (x - 1) (x + 1) x Hab C0 Hx) as HP.
  assert (Hshift : forall y, x - 1 <= y <= x + 1 ->
            RiemannInt (pr a y) =
            RiemannInt (pr a (x - 1)) + primitive Hab (FTC_P1 Hab C0) y).
  { intros y [Hy1 Hy2]. unfold primitive.
    destruct (Rle_dec (x - 1) y) as [r | n]; [| contradiction].
    destruct (Rle_dec y (x + 1)) as [r0 | n]; [| contradiction].
    symmetry. apply RiemannInt_P26. }
  intros eps Heps. destruct (HP eps Heps) as [delta Hd].
  assert (Hmin : 0 < Rmin delta 1)
    by (apply Rmin_pos; [apply cond_pos | lra]).
  exists (mkposreal _ Hmin). simpl. intros h Hh Hlt.
  assert (Hh1 : Rabs h < 1)
    by (eapply Rlt_le_trans; [exact Hlt | apply Rmin_r]).
  assert (Hhd : Rabs h < delta)
    by (eapply Rlt_le_trans; [exact Hlt | apply Rmin_l]).
  apply Rabs_def2 in Hh1.
  rewrite (Hshift (x + h)) by lra. rewrite (Hshift x) by lra.
  specialize (Hd h Hh Hhd).
  match goal with
  | |- Rabs (?e / h - _) < eps =>
      replace e with (primitive Hab (FTC_P1 Hab C0) (x + h)
                      - primitive Hab (FTC_P1 Hab C0) x) by ring
  end.
  exact Hd.
Qed.

Lemma null_derivative_constant (G : R -> R) :
  (forall x, derivable_pt_lim G x 0) -> forall a b, G a = G b.
Proof.
  intros HG a b.
  destruct (Rtotal_order a b) as [Hab | [-> | Hab]]; [| reflexivity |].
  - destruct (MVT_cor2 G (fun _ => 0) a b Hab) as (c & Hc & _).
    + intros c _. apply HG.
    + lra.
  - destruct (MVT_cor2 G (fun _ => 0) b a Hab) as (c & Hc & _).
    + intros c _. apply HG.
    + lra.
Qed.

(** The integral of a continuous function is the increase of any of its
    antiderivatives. *)
Lemma integral_antiderivative (f F : R -> R)
    (pr : forall a b, Riemann_integrable f a b) (a b : R) :
  continuity f -> (forall x, derivable_pt_lim F x (f x)) ->
  RiemannInt (pr a b) = F b - F a.
Proof.
  intros Hc HF.
  assert (HG : forall x,
             derivable_pt_lim (fun y => RiemannInt (pr a y) - F y) x 0).
  { intros x.
    apply (derivable_pt_lim_ext
             ((fun y => RiemannInt (pr a y)) - F)%F _ x (f x - f x)).
    - intros y. reflexivity.
    - ring.
    - apply derivable_pt_lim_minus; [now apply integral_derivative | apply HF]. }
  pose proof (null_derivative_constant _ HG a b) as Hconst.
  simpl in Hconst. rewrite RiemannInt_P9 in Hconst. lra.
Qed.

(** Second-order bound by two applications of the mean value theorem. *)
Lemma second_order_bound (g g' g'' : R -> R) (x y M : R) :
  (forall z, derivable_pt_lim g z (g' z)) ->
  (forall z, derivable_pt_lim g' z (g'' z)) ->
  (forall z, Rabs (z - x) <= Rabs (y - x) -> Rabs (g'' z) <= M) ->
  Rabs (g y - g x - (y - x) * g' x) <= M * (y - x) ^ 2.
Proof.
  intros Hg Hg' HM.
  assert (HM0 : 0 <= M).
  { eapply Rle_trans; [apply Rabs_pos | apply (HM x)].
    replace (x - x) with 0 by ring. rewrite Rabs_R0. apply Rabs_pos. }
  assert (Hstep : forall a b, a < b ->
            (forall z, a <= z <= b -> Rabs (z - x) <= Rabs (y - x)) ->
            forall u, a <= u <= b ->
            Rabs (g' u - g' x) <= M * Rabs (u - x)).
  { intros a b Hab Hin u Hu.
    destruct (Rtotal_order x u) as [Hxu | [<- | Hxu]].
    - destruct (MVT_cor2 g' g'' x u Hxu) as (c & Hc & Hcx).
      + intros c _. apply Hg'.
      + rewrite Hc, Rabs_mult. apply Rmult_le_compat_r; [apply Rabs_pos |].
        apply HM. eapply Rle_trans; [| apply (Hin u Hu)].
        rewrite !Rabs_right by lra. lra.
    - replace (g' x - g' x) with 0 by ring.
      replace (x - x) with 0 by ring. rewrite !Rabs_R0. lra.
    - destruct (MVT_cor2 g' g'' u x Hxu) as (c & Hc & Hcx).
      + intros c _. apply Hg'.
      + replace (g' u - g' x) with (- (g' x - g' u)) by ring.
        rewrite Rabs_Ropp, Hc, Rabs_mult.
        replace (Rabs (x - u)) with (Rabs (u - x))
          by (rewrite <- Rabs_Ropp; f_equal; ring).
        apply Rmult_le_compat_r; [apply Rabs_pos |].
        apply HM. eapply Rle_trans; [| apply (Hin u Hu)].
        rewrite !Rabs_left by lra. lra. }
  destruct (Rtotal_order x y) as [Hxy | [<- | Hxy]].
  - destruct (MVT_cor2 g g' x y Hxy) as (c & Hc & Hcx).
    + intros c _. apply Hg.
    + replace (g y - g x - (y - x) * g' x) with ((g' c - g' x) * (y - x))
        by (rewrite Hc; ring).
      rewrite Rabs_mult.
      assert (Hb : Rabs (g' c - g' x) <= M * Rabs (c - x)).
      { apply (Hstep x y Hxy); [| lra].
        intros z Hz. rewrite !Rabs_right by lra. lra. }
      rewrite (Rabs_right (c - x)) in Hb by lra.
      rewrite (Rabs_right (y - x)) by lra.
      assert (Hm : M * (c - x) <= M * (y - x))
        by (apply Rmult_le_compat_l; lra).
      replace (M * (y - x) ^ 2) with (M * (y - x) * (y - x)) by ring.
      apply Rmult_le_compat_r; lra.
  - replace (g x - g x - (x - x) * g' x) with 0 by ring.
    rewrite Rabs_R0. replace (x - x) with 0 by ring. nra.
  - destruct (MVT_cor2 g g' y x Hxy) as (c & Hc & Hcx).
    + intros c _. apply Hg.
    + replace (g y - g x - (y - x) * g' x) with ((g' c - g' x) * (y - x))
        by (replace (g y - g x) with (- (g x - g y)) by ring;
            rewrite Hc; ring).
      rewrite Rabs_mult.
      assert (Hb : Rabs (g' c - g' x) <= M * Rabs (c - x)).
      { apply (Hstep y x Hxy); [| lra].
        intros z Hz. rewrite !Rabs_left1 by lra. lra. }
      rewrite (Rabs_left (c - x)) in Hb by lra.
      rewrite (Rabs_left (y - x)) by lra.
      assert (Hm : M * - (c - x) <= M * - (y - x))
        by (apply Rmult_le_compat_l; lra).
      replace (M * (y - x) ^ 2) with (M * - (y - x) * - (y - x)) by ring.
      apply Rmult_le_compat_r; lra.
Qed.

(** Differentiation under the integral sign, for an integrand with a
    uniform second-order bound. *)
Lemma diff_under_integral (h dh : R -> R -> R) (x M : R)
    (prh : forall y, Riemann_integrable (h y) 0 1)
    (prd : Riemann_integrable (dh x) 0 1) :
  0 <= M ->
  (forall y s, Rabs (y - x) <= 1 -> 0 < s < 1 ->
     Rabs (h y s - h x s - (y - x) * dh x s) <= M * (y - x) ^ 2) ->
  derivable_pt_lim (fun y => RiemannInt (prh y)) x (RiemannInt prd).
Proof.
  intros HM0 Hb eps Heps.
  assert (Hd : 0 < Rmin 1 (eps / (M + 1))).
  { apply Rmin_pos; [lra |]. apply Rdiv_lt_0_compat; lra. }
  exists (mkposreal _ Hd). simpl. intros k Hk Hlt.
  assert (Hk1 : Rabs k < 1)
    by (eapply Rlt_le_trans; [exact Hlt | apply Rmin_l]).
  assert (Hk2 : Rabs k < eps / (M + 1))
    by (eapply Rlt_le_trans; [exact Hlt | apply Rmin_r]).
  pose (pr1 := RiemannInt_P10 (-1) (prh (x + k)) (prh x)).
  pose (pr2 := RiemannInt_P10 (- k) pr1 prd).
  pose proof (RiemannInt_P13 (prh (x + k)) (prh x) pr1) as H1.
  pose proof (RiemannInt_P13 pr1 prd pr2) as H2.
  assert (H01 : 0 <= 1) by lra.
  pose proof (RiemannInt_P17 pr2 (RiemannInt_P16 pr2) H01) as H3.
  assert (H4 : RiemannInt (RiemannInt_P16 pr2) <= M * k ^ 2).
  { apply Rle_trans with (RiemannInt (RiemannInt_P14 0 1 (M * k ^ 2)));
      [| rewrite RiemannInt_P15; lra].
    apply RiemannInt_P19; [exact H01 |].
    intros s Hs. unfold fct_cte.
    specialize (Hb (x + k) s).
    replace (x + k - x) with k in Hb by ring.
    replace (h (x + k) s + -1 * h x s + - k * dh x s)
      with (h (x + k) s - h x s - k * dh x s) by ring.
    apply Hb; [lra | exact Hs]. }
  replace ((RiemannInt (prh (x + k)) - RiemannInt (prh x)) / k
           - RiemannInt prd)
    with (RiemannInt pr2 / k) by (rewrite H2, H1; field; exact Hk).
  unfold Rdiv. rewrite Rabs_mult, Rabs_inv.
  assert (Hak : 0 < Rabs k) by now apply Rabs_pos_lt.
  apply (Rmult_lt_reg_r (Rabs k)); [exact Hak |].
  rewrite Rmult_assoc, Rinv_l by lra. rewrite Rmult_1_r.
  assert (Hk2' : Rabs k * (M + 1) < eps).
  { apply (Rmult_lt_reg_r (/ (M + 1))); [apply Rinv_0_lt_compat; lra |].
    rewrite Rmult_assoc, Rinv_r by lra. unfold Rdiv in Hk2. lra. }
  assert (Hsq : k ^ 2 = Rabs k * Rabs k).
  { rewrite <- Rabs_mult. rewrite Rabs_right; [ring | nra]. }
  rewrite Hsq in H4.
  assert (Hlast : M * (Rabs k * Rabs k) < eps * Rabs k) by nra.
  lra.
Qed.

Lemma weight_continuity (x : R) : continuity (Gauss.weight x).
Proof. unfold Gauss.weight. reg. intros s. nra. Qed.

Lemma weight_dx_continuity (x : R) : continuity (Gauss.weight_dx x).
Proof. unfold Gauss.weight_dx. reg. Qed.

Lemma stretched_continuity (x : R) : continuity (Gauss.stretched x).
Proof. unfold Gauss.stretched. reg. Qed.

Lemma weight_derivative (s y : R) :
  derivable_pt_lim (fun z => Gauss.weight z s) y (Gauss.weight_dx y s).
Proof.
  unfold Gauss.weight, Gauss.weight_dx.
  assert (Hs : 1 + s * s <> 0) by nra.
  assert (pr : derivable_pt
                 (fun z => exp (- (z * z * (1 + s * s))) / (1 + s * s)) y)
    by (reg; exact Hs).
  apply (derive_pt_eq_1 _ y _ pr). reg. field. exact Hs.
Qed.

Lemma weight_dx_derivative (s y : R) :
  derivable_pt_lim (fun z => Gauss.weight_dx z s) y (Gauss.weight_dxx y s).
Proof.
  unfold Gauss.weight_dx, Gauss.weight_dxx.
  assert (pr : derivable_pt
                 (fun z => -2 * z * exp (- (z * z * (1 + s * s)))) y)
    by reg.
  apply (derive_pt_eq_1 _ y _ pr). reg. unfold comp. ring.
Qed.

Lemma weight_dxx_bound (x z s : R) :
  Rabs (z - x) <= 1 -> 0 < s < 1 ->
  Rabs (Gauss.weight_dxx z s) <= 2 + 8 * (Rabs x + 1) ^ 2.
Proof.
  intros Hz Hs. unfold Gauss.weight_dxx.
  assert (Hzz : z * z <= (Rabs x + 1) ^ 2).
  { assert (Habs : Rabs z <= Rabs x + 1).
    { replace z with (x + (z - x)) by ring.
      eapply Rle_trans; [apply Rabs_triang | lra]. }
    pose proof (Rabs_pos z) as Hp.
    replace (z * z) with (Rabs z * Rabs z)
      by (rewrite <- Rabs_mult; apply Rabs_right; nra).
    nra. }
  assert (Hc : 1 <= 1 + s * s <= 2) by nra.
  assert (Hexp : 0 < exp (- (z * z * (1 + s * s))) <= 1).
  { split; [apply exp_pos |].
    apply Rle_trans with (exp 0); [| rewrite exp_0; lra].
    destruct (Req_dec (z * z * (1 + s * s)) 0) as [-> | Hne].
    - rewrite Ropp_0. lra.
    - left. apply exp_increasing. nra. }
  rewrite Rabs_mult, (Rabs_right (exp _)) by lra.
  assert (Hpoly : Rabs (-2 + 4 * (z * z) * (1 + s * s))
                  <= 2 + 8 * (Rabs x + 1) ^ 2).
  { apply Rabs_le. split; nra. }
  pose proof (Rabs_pos (-2 + 4 * (z * z) * (1 + s * s))) as Hp.
  nra.
Qed.

Lemma weight_integrable (x : R) : Riemann_integrable (Gauss.weight x) 0 1.
Proof. apply continuous_integrable, weight_continuity. Qed.

Lemma weight_dx_integrable (x : R) :
  Riemann_integrable (Gauss.weight_dx x) 0 1.
Proof. apply continuous_integrable, weight_dx_continuity. Qed.

Lemma weight_integral_derivative (x : R) :
  derivable_pt_lim (fun y => RiemannInt (weight_integrable y)) x
                   (RiemannInt (weight_dx_integrable x)).
Proof.
  apply (diff_under_integral Gauss.weight Gauss.weight_dx x
           (2 + 8 * (Rabs x + 1) ^ 2)).
  - pose proof (pow2_ge_0 (Rabs x + 1)). lra.
  - intros y s Hy Hs.
    apply (second_order_bound (fun z => Gauss.weight z s)
             (fun z => Gauss.weight_dx z s)
             (fun z => Gauss.weight_dxx z s)).
    + intros z. apply weight_derivative.
    + intros z. apply weight_dx_derivative.
    + intros z Hz. apply weight_dxx_bound; [lra | exact Hs].
Qed.

Lemma half_integral_derivative (x : R) :
  derivable_pt_lim (fun y => RiemannInt (Normal.erf_integrable 0 y)) x
                   (exp (- (x * x))).
Proof.
  apply (integral_derivative Normal.erf_integrand Normal.erf_integrable 0 x).
  apply Normal.erf_integrand_continuity.
Qed.

Lemma stretched_integrable (x a b : R) :
  Riemann_integrable (Gauss.stretched x) a b.
Proof. apply continuous_integrable, stretched_continuity. Qed.

(** Substitution [t = x s]. *)
Lemma stretched_integral (x : R) :
  RiemannInt (stretched_integrable x 0 1) =
  RiemannInt (Normal.erf_integrable 0 x).
Proof.
  rewrite (integral_antiderivative (Gauss.stretched x)
             (fun s => RiemannInt (Normal.erf_integrable 0 (x * s)))
             (stretched_integrable x) 0 1).
  - rewrite Rmult_1_r, Rmult_0_r, (RiemannInt_P9 (Normal.erf_integrable 0 0)).
    ring.
  - apply stretched_continuity.
  - intros s.
    assert (Hin : derivable_pt_lim (fun u => x * u) s x).
    { apply (derivable_pt_lim_ext (mult_real_fct x id) _ s (x * 1)).
      - intros u. reflexivity.
      - ring.
      - apply derivable_pt_lim_scal, derivable_pt_lim_id. }
    pose proof (derivable_pt_lim_comp _ _ _ _ _ Hin
                  (half_integral_derivative (x * s))) as Hc.
    eapply derivable_pt_lim_ext; [| | exact Hc].
    + intros u. reflexivity.
    + unfold Gauss.stretched. ring.
Qed.

Lemma weight_dx_integral (x : R) :
  RiemannInt (weight_dx_integrable x) =
  -2 * exp (- (x * x)) * RiemannInt (Normal.erf_integrable 0 x).
Proof.
  rewrite <- stretched_integral.
  pose (l := -2 * exp (- (x * x))).
  pose (pr0 := RiemannInt_P14 0 1 0).
  pose (pr3 := RiemannInt_P10 l pr0 (stretched_integrable x 0 1)).
  pose proof (RiemannInt_P13 pr0 (stretched_integrable x 0 1) pr3) as H3.
  rewrite (RiemannInt_P15 pr0) in H3.
  transitivity (RiemannInt pr3); [| rewrite H3; unfold l; ring].
  apply RiemannInt_P18; [lra |].
  intros s _. unfold Gauss.weight_dx, Gauss.stretched, fct_cte, l.
  replace (- (x * x * (1 + s * s)))
    with (- (x * x) + - (x * s * (x * s))) by ring.
  rewrite exp_plus. ring.
Qed.

(** [(integral of exp(-t^2) from 0 to x)^2 + integral of the weight] does
    not depend on [x]. *)
Lemma gauss_invariant_derivative (x : R) :
  derivable_pt_lim
    (fun y => RiemannInt (Normal.erf_integrable 0 y)
              * RiemannInt (Normal.erf_integrable 0 y)
              + RiemannInt (weight_integrable y)) x 0.
Proof.
  pose proof (half_integral_derivative x) as HE.
  pose proof (derivable_pt_lim_mult _ _ _ _ _ HE HE) as HEE.
  pose proof (derivable_pt_lim_plus _ _ _ _ _ HEE
                (weight_integral_derivative x)) as Hsum.
  eapply derivable_pt_lim_ext; [| | exact Hsum].
  - intros y. reflexivity.
  - rewrite weight_dx_integral. ring.
Qed.

Lemma weight_integral_0 : RiemannInt (weight_integrable 0) = PI / 4.
Proof.
  assert (Hc : continuity (fun s => / (1 + s ^ 2)))
    by (reg; intros s; nra).
  pose (pr := fun a b => continuous_integrable _ a b Hc).
  transitivity (RiemannInt (pr 0 1)).
  - apply RiemannInt_P18; [lra |].
    intros s _. unfold Gauss.weight.
    replace (- (0 * 0 * (1 + s * s))) with 0 by ring.
    rewrite exp_0. field. nra.
  - rewrite (integral_antiderivative _ atan pr 0 1 Hc).
    + rewrite atan_1, atan_0. ring.
    + apply derivable_pt_lim_atan.
Qed.

Lemma weight_integral_pos (x : R) : 0 < RiemannInt (weight_integrable x).
Proof.
  pose (c := exp (- (2 * (x * x))) / 2).
  assert (Hc : 0 < c) by (apply Rdiv_lt_0_compat; [apply exp_pos | lra]).
  apply Rlt_le_trans with (RiemannInt (RiemannInt_P14 0 1 c)).
  - rewrite RiemannInt_P15. lra.
  - apply RiemannInt_P19; [lra |].
    intros s Hs. unfold fct_cte, c, Gauss.weight.
    assert (Hs2 : 1 <= 1 + s * s <= 2) by nra.
    assert (He : exp (- (2 * (x * x))) <= exp (- (x * x * (1 + s * s)))).
    { destruct (Req_dec (- (2 * (x * x))) (- (x * x * (1 + s * s))))
        as [-> | Hne]; [lra |].
      left. apply exp_increasing. nra. }
    pose proof (exp_pos (- (2 * (x * x)))) as Hp.
    assert (Hinv : / 2 <= / (1 + s * s)) by (apply Rinv_le_contravar; lra).
    assert (Hi0 : 0 < / 2) by lra.
    unfold Rdiv. apply Rmult_le_compat; lra.
Qed.

(** The Gaussian integral: [integral of exp(-t^2) from 0 to x] stays below
    [sqrt(pi)/2] in absolute value. *)
Lemma half_integral_bound (x : R) :
  Rabs (RiemannInt (Normal.erf_integrable 0 x)) < sqrt PI / 2.
Proof.
  pose proof (null_derivative_constant _ gauss_invariant_derivative x 0)
    as Hinv.
  simpl in Hinv.
  rewrite (RiemannInt_P9 (Normal.erf_integrable 0 0)), weight_integral_0
    in Hinv.
  pose proof (weight_integral_pos x) as Hpos.
  set (E := RiemannInt (Normal.erf_integrable 0 x)) in *.
  assert (Hpi : 0 < PI) by apply PI_RGT_0.
  assert (Hs : 0 < sqrt PI) by (apply sqrt_lt_R0; lra).
  assert (Hss : sqrt PI * sqrt PI = PI) by (apply sqrt_sqrt; lra).
  assert (Hsq : E * E < (sqrt PI / 2) * (sqrt PI / 2)) by nra.
  apply Rsqr_lt_abs_0 in Hsq.
  rewrite (Rabs_right (sqrt PI / 2)) in Hsq by lra. exact Hsq.
Qed.

Lemma erf_bound (x : R) : -1 < Normal.erf x < 1.
Proof.
  pose proof (half_integral_bound x) as Hb.
  assert (Hpi : 0 < PI) by apply PI_RGT_0.
  assert (Hs : 0 < sqrt PI) by (apply sqrt_lt_R0; lra).
  unfold Normal.erf. set (E := RiemannInt _) in *.
  apply Rabs_def2 in Hb. destruct Hb as [Hu Hl].
  assert (Heq : 2 / sqrt PI * (sqrt PI / 2) = 1) by (field; lra).
  assert (Hk : 0 < 2 / sqrt PI) by (apply Rdiv_lt_0_compat; lra).
  split.
  - replace (-1) with (2 / sqrt PI * - (sqrt PI / 2)) by (field; lra).
    now apply Rmult_lt_compat_l.
  - rewrite <- Heq. now apply Rmult_lt_compat_l.
Qed.

Lemma Phi_bounds (z : R) : 0 < Spec.Phi z < 1.
Proof.
  pose proof (erf_bound (z / sqrt 2)) as Hb.
  unfold Spec.Phi, Normal.ndtr. lra.
Qed.

Lemma arctan_integrable (a b : R) :
  Riemann_integrable (fun s => / (1 + s ^ 2)) a b.
Proof. apply continuous_integrable. reg; intros; nra. Qed.

Lemma arctan_integral : RiemannInt (arctan_integrable 0 1) = PI / 4.
Proof.
  rewrite (integral_antiderivative _ atan arctan_integrable 0 1).
  - rewrite atan_1, atan_0. ring.
  - reg; intros; nra.
  - apply derivable_pt_lim_atan.
Qed.

Lemma weight_integral_le (x : R) :
  RiemannInt (weight_integrable x) <= exp (- (x * x)) * (PI / 4).
Proof.
  pose (l := exp (- (x * x))).
  pose (pr0 := RiemannInt_P14 0 1 0).
  pose (pr3 := RiemannInt_P10 l pr0 (arctan_integrable 0 1)).
  pose proof (RiemannInt_P13 pr0 (arctan_integrable 0 1) pr3) as H3.
  rewrite (RiemannInt_P15 pr0), arctan_integral in H3.
  apply Rle_trans with (RiemannInt pr3); [| rewrite H3; unfold l; lra].
  apply RiemannInt_P19; [lra |].
  intros s _. unfold Gauss.weight, fct_cte, l.
  assert (Hs : 0 < 1 + s * s) by nra.
  replace (1 + s ^ 2) with (1 + s * s) by ring.
  assert (He : exp (- (x * x * (1 + s * s))) <= exp (- (x * x))).
  { destruct (Req_dec (- (x * x * (1 + s * s))) (- (x * x)))
      as [-> | Hne]; [lra |].
    left. apply exp_increasing. nra. }
  assert (Hinv : 0 < / (1 + s * s)) by now apply Rinv_0_lt_compat.
  unfold Rdiv. rewrite Rplus_0_l. apply Rmult_le_compat_r; lra.
Qed.

Lemma half_integral_nonneg (x : R) :
  0 <= x -> 0 <= RiemannInt (Normal.erf_integrable 0 x).
Proof.
  intros [Hx | <-]; [| rewrite RiemannInt_P9; lra].
  destruct (MVT_cor2 (fun y => RiemannInt (Normal.erf_integrable 0 y))
              (fun y => exp (- (y * y))) 0 x Hx) as (c & Hc & _).
  - intros c _. apply half_integral_derivative.
  - rewrite (RiemannInt_P9 (Normal.erf_integrable 0 0)) in Hc.
    pose proof (exp_pos (- (c * c))). nra.
Qed.

(** [1 - erf x <= exp(-x^2)] for [x >= 0]. *)
Lemma erf_tail (x : R) : 0 <= x -> 1 - exp (- (x * x)) <= Normal.erf x.
Proof.
  intros Hx.
  pose proof (null_derivative_constant _ gauss_invariant_derivative x 0)
    as Hinv.
  simpl in Hinv.
  rewrite (RiemannInt_P9 (Normal.erf_integrable 0 0)), weight_integral_0
    in Hinv.
  pose proof (weight_integral_le x) as Hle.
  pose proof (half_integral_nonneg x Hx) as Hpos.
  pose proof (erf_bound x) as Hb.
  unfold Normal.erf in *.
  set (E := RiemannInt (Normal.erf_integrable 0 x)) in *.
  set (q := exp (- (x * x))) in *.
  assert (Hpi : 0 < PI) by apply PI_RGT_0.
  assert (Hs : 0 < sqrt PI) by (apply sqrt_lt_R0; lra).
  assert (Hss : sqrt PI * sqrt PI = PI) by (apply sqrt_sqrt; lra).
  set (e := 2 / sqrt PI * E) in *.
  assert (He0 : 0 <= e).
  { unfold e. apply Rmult_le_pos; [| exact Hpos].
    left. apply Rdiv_lt_0_compat; lra. }
  assert (Hee : e * e = 4 / PI * (E * E)).
  { unfold e. clear - Hs Hss. set (r := sqrt PI) in *.
    rewrite <- Hss. field. lra. }
  assert (HEE : PI / 4 * (1 - q) <= E * E) by lra.
  assert (Hsq : 1 - q <= e * e).
  { rewrite Hee.
    apply Rle_trans with (4 / PI * (PI / 4 * (1 - q))).
    - right. field. lra.
    - apply Rmult_le_compat_l; [| exact HEE].
      left. apply Rdiv_lt_0_compat; lra. }
  nra.
Qed.

(** [Phi(z) <= exp(-z^2/2) / 2] for [z <= 0]. *)
Lemma Phi_tail (z : R) : z <= 0 -> Spec.Phi z <= exp (- (z ^ 2) / 2) / 2.
Proof.
  intros Hz.
  assert (Hs2 : 0 < sqrt 2) by (apply sqrt_lt_R0; lra).
  assert (Hy : 0 <= - z / sqrt 2).
  { apply Rmult_le_pos; [lra |]. left. now apply Rinv_0_lt_compat. }
  pose proof (erf_tail _ Hy) as Ht.
  replace (- z / sqrt 2 * (- z / sqrt 2)) with (z ^ 2 / 2) in Ht.
  2:{ replace (- z / sqrt 2 * (- z / sqrt 2))
        with (z ^ 2 / (sqrt 2 * sqrt 2)) by (field; lra).
      rewrite sqrt_sqrt by lra. reflexivity. }
  pose proof (Phi_reflection (- z)) as Hr. rewrite Ropp_involutive in Hr.
  rewrite Hr. unfold Spec.Phi, Normal.ndtr.
  replace (- z ^ 2 / 2) with (- (z ^ 2 / 2)) by field.
  lra.
Qed.

(** ** Size of the density *)

Lemma normal_pdf_le_peak (xi omega x : R) :
  0 < omega -> Spec.normal_pdf xi omega x <= 1 / (omega * sqrt (2 * PI)).
Proof.
  intros Hw. pose proof sqrt_2PI_pos as Hs. unfold Spec.normal_pdf.
  assert (Hpeak : 0 < 1 / (omega * sqrt (2 * PI))).
  { apply Rdiv_lt_0_compat; [lra |]. now apply Rmult_lt_0_compat. }
  assert (Hle : exp (- (x - xi) ^ 2 / (2 * omega ^ 2)) <= 1).
  { apply Rle_trans with (exp 0); [| rewrite exp_0; lra].
    assert (Hden : 0 < / (2 * omega ^ 2))
      by (apply Rinv_0_lt_compat; nra).
    destruct (Req_dec (x - xi) 0) as [H0 | H0].
    - rewrite H0. right. f_equal. field. lra.
    - left. apply exp_increasing.
      assert (Hsq : 0 < (x - xi) ^ 2) by nra.
      unfold Rdiv. nra. }
  nra.
Qed.

(** X16.  For a positive scale the density is never negative and never
    more than twice the normal density with the same location and scale,
    hence never more than [2/(omega sqrt(2 pi))]. *)
Theorem pdf_nonnegative_and_bounded (alpha xi omega x : R) :
  0 < omega ->
  exists v,
    Skewnorm.pdf x alpha xi omega = Some v /\
    0 <= v <= 2 * Spec.normal_pdf xi omega x /\
    v <= 2 / (omega * sqrt (2 * PI)).
Proof.
  intros Hw. eexists.
  rewrite skewnorm_pdf_closed_form by exact Hw.
  split; [reflexivity |].
  rewrite skew_normal_pdf_weight by exact Hw.
  pose proof (normal_pdf_pos xi omega x Hw) as Hn.
  pose proof (normal_pdf_le_peak xi omega x Hw) as Hp.
  pose proof (Phi_bounds (alpha * (x - xi) / omega)) as [H0 H1].
  set (n := Spec.normal_pdf xi omega x) in *.
  set (P := Spec.Phi _) in *.
  replace (2 / (omega * sqrt (2 * PI)))
    with (2 * (1 / (omega * sqrt (2 * PI))))
    by (pose proof sqrt_2PI_pos; field; lra).
  repeat split; nra.
Qed.

Lemma pdf_nonnegative_and_bounded_witness :
  exists v,
    Skewnorm.pdf 2 3 1 2 = Some v /\
    0 <= v <= 2 * Spec.normal_pdf 1 2 2 /\
    v <= 2 / (2 * sqrt (2 * PI)).
Proof.
  apply (pdf_nonnegative_and_bounded 3 1 2 2). lra.
Defined.

(** X17.  On the side away from the skew, where [alpha (x - xi) <= 0],
    the density is at most [exp(-t^2/2)] times the normal density, with
    [t = alpha (x - xi)/omega]: a large shape empties that side. *)
Theorem pdf_suppressed_side (alpha xi omega x : R) :
  0 < omega -> alpha * (x - xi) <= 0 ->
  exists v,
    Skewnorm.pdf x alpha xi omega = Some v /\
    v <= exp (- (alpha * (x - xi) / omega) ^ 2 / 2)
         * Spec.normal_pdf xi omega x.
Proof.
  intros Hw Hside. eexists.
  rewrite skewnorm_pdf_closed_form by exact Hw.
  split; [reflexivity |].
  rewrite skew_normal_pdf_weight by exact Hw.
  pose proof (normal_pdf_pos xi omega x Hw) as Hn.
  assert (Ht : alpha * (x - xi) / omega <= 0).
  { unfold Rdiv. assert (0 < / omega) by now apply Rinv_0_lt_compat. nra. }
  pose proof (Phi_tail _ Ht) as Htail.
  set (n := Spec.normal_pdf xi omega x) in *.
  set (P := Spec.Phi _) in *. set (q := exp _) in *.
  nra.
Qed.

Lemma pdf_suppressed_side_witness :
  exists v,
    Skewnorm.pdf (- 2) 10 0 1 = Some v /\
    v <= exp (- (10 * (- 2 - 0) / 1) ^ 2 / 2) * Spec.normal_pdf 0 1 (- 2).
Proof.
  apply (pdf_suppressed_side 10 0 1 (- 2)); lra.
Defined.

Lemma pdf_bound_for_scale (alpha xi omega x : R) :
  1 / 10 <= omega ->
  exists v, Skewnorm.pdf x alpha xi omega = Some v /\ 0 <= v < 9.
Proof.
  intros Hw. assert (Hpos : 0 < omega) by lra.
  eexists. rewrite skewnorm_pdf_closed_form by exact Hpos.
  split; [reflexivity |].
  rewrite skew_normal_pdf_weight by exact Hpos.
  pose proof (normal_pdf_pos xi omega x Hpos) as Hn.
  pose proof (normal_pdf_le_peak xi omega x Hpos) as Hp.
  pose proof (Phi_bounds (alpha * (x - xi) / omega)) as [H0 H1].
  pose proof sqrt_2PI_pos as Hs.
  assert (Hsq : sqrt (2 * PI) * sqrt (2 * PI) = 2 * PI).
  { apply sqrt_sqrt. pose proof PI_RGT_0. lra. }
  assert (Hpi : 3 < PI) by (pose proof PI2_3_2; lra).
  assert (Hroot : 20 / 9 < sqrt (2 * PI)).
  { destruct (Rlt_le_dec (20 / 9) (sqrt (2 * PI))) as [H | H];
      [exact H | exfalso; nra]. }
  assert (Hpeak : 1 / (omega * sqrt (2 * PI)) < 9 / 2).
  { apply (Rmult_lt_reg_r (omega * sqrt (2 * PI))); [nra |].
    replace (1 / (omega * sqrt (2 * PI)) * (omega * sqrt (2 * PI)))
      with 1 by (field; lra).
    nra. }
  set (n := Spec.normal_pdf xi omega x) in *.
  set (P := Spec.Phi _) in *.
  split; nra.
Qed.

(** X18.  In every run each of the density values of the curve is a
    number from 0 to below 9, whatever the sliders are set to and whatever
    sample is drawn. *)
Theorem every_run_density_from_0_below_9
    (ui : App.Sidebar) (generated_data : list R) :
  App.drawn (App.read_sidebar ui) generated_data ->
  exists ys,
    App.pdf_values generated_data
      (Q2R (App.skew_param (App.read_sidebar ui)))
      (Q2R (App.loc_param (App.read_sidebar ui)))
      (Q2R (App.scale_param (App.read_sidebar ui))) = Some ys /\
    length ys = 500%nat /\
    forall y, In y ys -> exists v, y = Some v /\ 0 <= v < 9.
Proof.
  intros Hdrawn.
  pose proof (drawn_nonempty ui generated_data Hdrawn) as Hne.
  assert (Hs : (1 # 10 <= App.scale_param (App.read_sidebar ui) <= 10)%Q).
  { apply (slider_in_range App.scale_param_slider); simpl; lra. }
  assert (Hw : 1 / 10 <= Q2R (App.scale_param (App.read_sidebar ui))).
  { replace (1 / 10) with (Q2R (1 # 10)) by (unfold Q2R; simpl; field).
    apply Qle_Rle. lra. }
  set (omega := Q2R (App.scale_param (App.read_sidebar ui))) in *.
  set (xi := Q2R (App.loc_param (App.read_sidebar ui))).
  set (alpha := Q2R (App.skew_param (App.read_sidebar ui))).
  destruct (x_pdf_defined generated_data xi omega Hne)
    as (lo & hi & _ & _ & _ & _ & Hx).
  unfold App.pdf_values. rewrite Hx. simpl option_map.
  eexists. split; [reflexivity |].
  split; [now rewrite length_map, linspace_length |].
  intros y Hy. apply in_map_iff in Hy. destruct Hy as (x & <- & _).
  destruct (pdf_bound_for_scale alpha xi omega x Hw) as (v & Hv & Hb).
  exists v. split; assumption.
Qed.

Lemma every_run_density_from_0_below_9_witness :
  let ui := {| App.n_samples_state := Some 0%nat;
               App.skew_param_state := Some 200%nat;
               App.loc_param_state := None;
               App.scale_param_state := Some 0%nat |} in
  exists ys,
    App.pdf_values (repeat 1 100)
      (Q2R (App.skew_param (App.read_sidebar ui)))
      (Q2R (App.loc_param (App.read_sidebar ui)))
      (Q2R (App.scale_param (App.read_sidebar ui))) = Some ys /\
    length ys = 500%nat /\
    forall y, In y ys -> exists v, y = Some v /\ 0 <= v < 9.
Proof.
  intros ui.
  apply (every_run_density_from_0_below_9 ui (repeat 1 100)).
  reflexivity.
Defined.
